(** * A metadata-assisted shift cipher: embedding and properties

    Shallow embedding of [code/question-one/chipher.py]: the character
    helpers, the four class rules and their inverses, the encoder loop, the
    metadata-guided decoder, the brute-force fallback and the verifier.

    Conventions.
    - A Python character (a [str] of length one) is its Unicode code point,
      a value of [N]; [ord] and [chr] are the two conversions with [Z], the
      type of Python's unbounded integers.
    - A text is the list of its characters; a metadata code is a [string],
      as in the source, where codes are compared with [==].
    - Python's [%] on integers is floored; for the positive modulus 26 it
      coincides with [Z.modulo]. *)

From Stdlib Require Import ZArith NArith String Ascii DecimalString.
From Stdlib Require Import List Sorted Bool Lia Arith.
Import ListNotations.

Local Open Scope Z_scope.

(** ** Characters and integers *)

Definition char := N.
Definition text := list char.

Definition ord (c : char) : Z := Z.of_N c.

(** [chr] is only ever applied to values between 65 and 122 (see
    [shift_char_keeps_lower] and [shift_char_keeps_upper]), where Python's
    [chr] cannot raise. *)
Definition chr (z : Z) : char := Z.to_N z.

(** Python's [a % b] for [b > 0]. *)
Definition py_mod (a b : Z) : Z := a mod b.

Definition char_of_ascii (a : ascii) : char := N_of_ascii a.

Fixpoint text_of_string (s : string) : text :=
  match s with
  | EmptyString => []
  | String a s' => char_of_ascii a :: text_of_string s'
  end.

(** ** Helper functions *)

(** ['a' <= c <= 'z'] *)
Definition is_lower (c : char) : bool := ((97 <=? c) && (c <=? 122))%N.

(** ['A' <= c <= 'Z'] *)
Definition is_upper (c : char) : bool := ((65 <=? c) && (c <=? 90))%N.

Definition shift_char (c : char) (shift : Z) : char :=
  if is_lower c then
    let base := ord 97%N in
    chr (py_mod (ord c - base + shift) 26 + base)
  else if is_upper c then
    let base := ord 65%N in
    chr (py_mod (ord c - base + shift) 26 + base)
  else c.

(** ** Metadata codes, one per input character *)

Definition classify_plain (c : char) : string :=
  if is_lower c then
    (if ((97 <=? c) && (c <=? 109))%N then "L1" else "L2")%string
  else if is_upper c then
    (if ((65 <=? c) && (c <=? 77))%N then "U1" else "U2")%string
  else "O"%string.

Definition encrypt_char_and_meta (c : char) (shift1 shift2 : Z) : char * string :=
  let code := classify_plain c in
  let s1 := py_mod shift1 26 in
  let s2 := py_mod shift2 26 in
  if (code =? "L1")%string then (shift_char c (py_mod (s1 * s2) 26), code)
  else if (code =? "L2")%string then (shift_char c (- py_mod (s1 + s2) 26), code)
  else if (code =? "U1")%string then (shift_char c (- s1), code)
  else if (code =? "U2")%string then (shift_char c (py_mod (s2 * s2) 26), code)
  else (c, code).

Definition inverse_by_meta (cipher_c : char) (meta_code : string)
    (shift1 shift2 : Z) : char :=
  let s1 := py_mod shift1 26 in
  let s2 := py_mod shift2 26 in
  if (meta_code =? "L1")%string then shift_char cipher_c (- py_mod (s1 * s2) 26)
  else if (meta_code =? "L2")%string then shift_char cipher_c (py_mod (s1 + s2) 26)
  else if (meta_code =? "U1")%string then shift_char cipher_c s1
  else if (meta_code =? "U2")%string then shift_char cipher_c (- py_mod (s2 * s2) 26)
  else cipher_c.

(** The branch of [encrypt_char_and_meta] that a code selects, as a function
    of the code: [encrypt_char_and_meta] runs it at [classify_plain c]
    (lemma [encrypt_char_and_meta_by_code]). *)
Definition forward_by_code (c : char) (code : string) (shift1 shift2 : Z) : char :=
  let s1 := py_mod shift1 26 in
  let s2 := py_mod shift2 26 in
  if (code =? "L1")%string then shift_char c (py_mod (s1 * s2) 26)
  else if (code =? "L2")%string then shift_char c (- py_mod (s1 + s2) 26)
  else if (code =? "U1")%string then shift_char c (- s1)
  else if (code =? "U2")%string then shift_char c (py_mod (s2 * s2) 26)
  else c.

(** ** The encoder loop of [encrypt_file]

    [enc_chars] and [meta] start empty and grow by one [append] each per
    character of [raw]. *)

Fixpoint encrypt_loop (raw : text) (shift1 shift2 : Z)
    (enc_chars : text) (meta : list string) : text * list string :=
  match raw with
  | [] => (enc_chars, meta)
  | ch :: rest =>
      let '(e, code) := encrypt_char_and_meta ch shift1 shift2 in
      encrypt_loop rest shift1 shift2 (enc_chars ++ [e]) (meta ++ [code])
  end.

Definition encrypt_text (raw : text) (shift1 shift2 : Z) : text * list string :=
  encrypt_loop raw shift1 shift2 [] [].

(** ** The metadata path of [decrypt_file]

    [[inverse_by_meta(c, m, shift1, shift2) for c, m in zip(enc_text, meta)]];
    [combine] truncates to the shorter list, as [zip] does. *)

Definition decrypt_with_meta (enc_text : text) (meta : list string)
    (shift1 shift2 : Z) : text :=
  map (fun cm => inverse_by_meta (fst cm) (snd cm) shift1 shift2)
      (combine enc_text meta).

(** ** Brute-force fallback (only used if metadata is missing or invalid) *)

(** Python's [range(lo, hi)]. *)
Definition py_range (lo hi : Z) : list Z :=
  map (fun k => lo + Z.of_nat k) (seq 0 (Z.to_nat (hi - lo))).

(** [[chr(i) for i in range(ord('a'), ord('z') + 1)]] *)
Definition lower_alphabet : text := map chr (py_range (ord 97%N) (ord 122%N + 1)).

(** [[chr(i) for i in range(ord('A'), ord('Z') + 1)]] *)
Definition upper_alphabet : text := map chr (py_range (ord 65%N) (ord 90%N + 1)).

(** An ambiguity record [(i, c, candidates)]. *)
Definition ambiguity : Type := nat * char * list char.

Definition amb_pos (r : ambiguity) : nat := fst (fst r).
Definition amb_cipher (r : ambiguity) : char := snd (fst r).
Definition amb_candidates (r : ambiguity) : list char := snd r.

(** What the inner loop computes for a plaintext letter [p] when the cipher
    character is lower case: [p]'s own forward rule. *)
Definition lower_forward (p : char) (s1 s2 : Z) : char :=
  let code := classify_plain p in
  if (code =? "L1")%string then shift_char p (py_mod (s1 * s2) 26)
  else shift_char p (- py_mod (s1 + s2) 26).

(** The same when the cipher character is upper case. *)
Definition upper_forward (p : char) (s1 s2 : Z) : char :=
  let code := classify_plain p in
  if (code =? "U1")%string then shift_char p (- s1)
  else shift_char p (py_mod (s2 * s2) 26).

(** The inner loop [for p in alphabet: ... if e == c: candidates.append(p)],
    with [forward] the encryption of [p] computed in its body. *)
Fixpoint candidates_loop (forward : char -> char) (alphabet : text) (c : char)
    (candidates : list char) : list char :=
  match alphabet with
  | [] => candidates
  | p :: rest =>
      let e := forward p in
      candidates_loop forward rest c
        (if (e =? c)%N then candidates ++ [p] else candidates)
  end.

Definition lower_candidates (c : char) (s1 s2 : Z) : list char :=
  candidates_loop (fun p => lower_forward p s1 s2) lower_alphabet c [].

Definition upper_candidates (c : char) (s1 s2 : Z) : list char :=
  candidates_loop (fun p => upper_forward p s1 s2) upper_alphabet c [].

(** [candidates[0] if candidates else c]; also [candidates[0]] in the branch
    where the list has length one. *)
Definition first_or (c : char) (candidates : list char) : char :=
  match candidates with
  | [] => c
  | p :: _ => p
  end.

(** The loop [for i, c in enumerate(enc_text)], started at index [i]. *)
Fixpoint brute_force_loop (i : nat) (enc_text : text) (s1 s2 : Z)
    (decrypted : list char) (ambiguities : list ambiguity)
    : list char * list ambiguity :=
  match enc_text with
  | [] => (decrypted, ambiguities)
  | c :: rest =>
      if is_lower c then
        let candidates := lower_candidates c s1 s2 in
        if (length candidates =? 1)%nat then
          brute_force_loop (S i) rest s1 s2
            (decrypted ++ [first_or c candidates]) ambiguities
        else
          brute_force_loop (S i) rest s1 s2
            (decrypted ++ [first_or c candidates])
            (ambiguities ++ [(i, c, candidates)])
      else if is_upper c then
        let candidates := upper_candidates c s1 s2 in
        if (length candidates =? 1)%nat then
          brute_force_loop (S i) rest s1 s2
            (decrypted ++ [first_or c candidates]) ambiguities
        else
          brute_force_loop (S i) rest s1 s2
            (decrypted ++ [first_or c candidates])
            (ambiguities ++ [(i, c, candidates)])
      else
        brute_force_loop (S i) rest s1 s2 (decrypted ++ [c]) ambiguities
  end.

Definition brute_force_decrypt (enc_text : text) (shift1 shift2 : Z)
    : list char * list ambiguity :=
  let s1 := py_mod shift1 26 in
  let s2 := py_mod shift2 26 in
  brute_force_loop 0 enc_text s1 s2 [] [].

(** *** One turn of the loop, seen from outside

    The candidate list, the appended character and the appended records of
    the turn that handles cipher character [c] at index [i]; lemma
    [brute_force_loop_spec] shows that the loop is their concatenation. *)

Definition position_candidates (c : char) (s1 s2 : Z) : list char :=
  if is_lower c then lower_candidates c s1 s2
  else if is_upper c then upper_candidates c s1 s2
  else [].

Definition position_output (c : char) (s1 s2 : Z) : char :=
  if is_lower c || is_upper c then first_or c (position_candidates c s1 s2)
  else c.

Definition position_records (i : nat) (c : char) (s1 s2 : Z) : list ambiguity :=
  if is_lower c || is_upper c then
    if (length (position_candidates c s1 s2) =? 1)%nat then []
    else [(i, c, position_candidates c s1 s2)]
  else [].

(** Python's [enumerate], counting from [i]. *)
Definition enumerate_from {A : Type} (i : nat) (l : list A) : list (nat * A) :=
  combine (seq i (length l)) l.

(** The letters [a]-[m] and [A]-[M]: the classes L1 and U1. *)
Definition first_half (p : char) : bool :=
  ((classify_plain p =? "L1") || (classify_plain p =? "U1"))%string.

(** The letters [n]-[z] and [N]-[Z]: the classes L2 and U2. *)
Definition second_half (p : char) : bool :=
  ((classify_plain p =? "L2") || (classify_plain p =? "U2"))%string.

(** The letters of the case of [c]. *)
Definition same_case_alphabet (c : char) : text :=
  if is_lower c then lower_alphabet
  else if is_upper c then upper_alphabet
  else [].

(** Whether plaintext character [p] encrypts to cipher character [c]. *)
Definition encrypts_to (shift1 shift2 : Z) (c p : char) : bool :=
  (fst (encrypt_char_and_meta p shift1 shift2) =? c)%N.

(** Whether every letter of [alphabet], once encrypted, has a single
    candidate: a check that runs over the alphabet. *)
Definition uniquely_recovered (alphabet : text) (shift1 shift2 : Z) : bool :=
  forallb (fun t =>
             (length (position_candidates
                        (fst (encrypt_char_and_meta t shift1 shift2))
                        (py_mod shift1 26) (py_mod shift2 26)) =? 1)%nat)
          alphabet.

(** ** Text helpers used by the verifier *)

Fixpoint text_eqb (x y : text) : bool :=
  match x, y with
  | [], [] => true
  | c :: x', d :: y' => (c =? d)%N && text_eqb x' y'
  | _, _ => false
  end.

(** [str.splitlines(keepends=True)]: a line ends after a line boundary
    (["\n"], ["\r"], ["\r\n"], ["\v"], ["\f"], [0x1c]-[0x1e], [0x85],
    [0x2028], [0x2029]); no empty last line. *)
Definition is_line_boundary (c : char) : bool :=
  ((c =? 10) || (c =? 11) || (c =? 12) || (c =? 13) || (c =? 28) || (c =? 29)
   || (c =? 30) || (c =? 133) || (c =? 8232) || (c =? 8233))%N.

Fixpoint splitlines_loop (t : text) (cur : text) : list text :=
  match t with
  | [] => match cur with [] => [] | _ => [cur] end
  | c :: rest =>
      if (c =? 13)%N then
        match rest with
        | d :: rest' =>
            if (d =? 10)%N then (cur ++ [c; d]) :: splitlines_loop rest' []
            else (cur ++ [c]) :: splitlines_loop rest []
        | [] => [cur ++ [c]]
        end
      else if is_line_boundary c then (cur ++ [c]) :: splitlines_loop rest []
      else splitlines_loop rest (cur ++ [c])
  end.

Definition splitlines_keepends (t : text) : list text := splitlines_loop t [].

(** [line.rstrip("\n")] *)
Definition rstrip_newline (line : text) : text :=
  rev ((fix strip (r : text) : text :=
          match r with
          | c :: r' => if (c =? 10)%N then strip r' else r
          | [] => []
          end) (rev line)).

(** ['{}'.format(n)] for a non-negative integer. *)
Definition format_nat (n : nat) : text :=
  text_of_string (NilEmpty.string_of_uint (Nat.to_uint n)).

(** [l[i1:i2]] for [0 <= i1], [0 <= i2]. *)
Definition slice {A : Type} (l : list A) (i1 i2 : nat) : list A :=
  firstn (i2 - i1) (skipn i1 l).

(** ** Python's [difflib.unified_diff]

    The standard-library function [verify_files] calls, followed through
    [SequenceMatcher(None, a, b)] as [unified_diff] builds it: no junk
    predicate and [autojunk] on. Indices are natural numbers. *)

Module Difflib.

(** [b2j.get(x, nothing)] after [__chain_b]: the indices of [x] in [b], in
    increasing order, unless [x] is popular ([len(b) >= 200] and more than
    [len(b) // 100 + 1] occurrences), in which case its key was deleted. *)
Definition indices_of (b : list text) (x : text) : list nat :=
  map fst (filter (fun p => text_eqb (snd p) x) (combine (seq 0 (length b)) b)).

Definition b2j_get (b : list text) (x : text) : list nat :=
  let idxs := indices_of b x in
  let n := length b in
  if ((200 <=? n) && (n / 100 + 1 <? length idxs))%nat then [] else idxs.

(** [j2len.get(j - 1, 0)]; the key [-1] is never present. *)
Fixpoint j2len_lookup (j2len : list (nat * nat)) (j : nat) : nat :=
  match j2len with
  | [] => 0
  | (j', k) :: rest => if (j' =? j)%nat then k else j2len_lookup rest j
  end.

Definition j2len_get_pred (j2len : list (nat * nat)) (j : nat) : nat :=
  match j with
  | O => 0
  | S j' => j2len_lookup j2len j'
  end.

(** A match [(i, j, size)]. *)
Definition block : Type := nat * nat * nat.

(** The loop [for j in b2j.get(a[i], nothing)] at a fixed [i]. *)
Fixpoint inner_loop (idxs : list nat) (i blo bhi : nat)
    (j2len newj2len : list (nat * nat)) (best : block)
    : list (nat * nat) * block :=
  match idxs with
  | [] => (newj2len, best)
  | j :: rest =>
      if (j <? blo)%nat then inner_loop rest i blo bhi j2len newj2len best
      else if (bhi <=? j)%nat then (newj2len, best)
      else
        let k := (j2len_get_pred j2len j + 1)%nat in
        let newj2len := (j, k) :: newj2len in
        let '(_, _, bestsize) := best in
        let best := if (bestsize <? k)%nat
                    then ((i + 1 - k)%nat, (j + 1 - k)%nat, k) else best in
        inner_loop rest i blo bhi j2len newj2len best
  end.

(** The loop [for i in range(alo, ahi)]. *)
Fixpoint outer_loop (a b : list text) (irange : list nat) (blo bhi : nat)
    (j2len : list (nat * nat)) (best : block) : block :=
  match irange with
  | [] => best
  | i :: rest =>
      let '(newj2len, best) :=
        inner_loop (b2j_get b (nth i a [])) i blo bhi j2len [] best in
      outer_loop a b rest blo bhi newj2len best
  end.

(** [while besti > alo and bestj > blo and a[besti-1] == b[bestj-1]]; no
    element is junk. Each turn lowers [besti], the recursion's argument. *)
Fixpoint extend_left (a b : list text) (alo blo : nat)
    (besti bestj bestsize : nat) : block :=
  match besti, bestj with
  | S besti', S bestj' =>
      if ((alo <? besti) && (blo <? bestj)
          && text_eqb (nth besti' a []) (nth bestj' b []))%nat
      then extend_left a b alo blo besti' bestj' (S bestsize)
      else (besti, bestj, bestsize)
  | _, _ => (besti, bestj, bestsize)
  end.

(** [while besti+bestsize < ahi and bestj+bestsize < bhi and
    a[besti+bestsize] == b[bestj+bestsize]]; [gap] is
    [ahi - (besti + bestsize)], which each turn lowers. *)
Fixpoint extend_right (a b : list text) (bhi : nat) (gap : nat)
    (besti bestj bestsize : nat) : block :=
  match gap with
  | O => (besti, bestj, bestsize)
  | S gap' =>
      if ((bestj + bestsize <? bhi)
          && text_eqb (nth (besti + bestsize) a []) (nth (bestj + bestsize) b []))%nat
      then extend_right a b bhi gap' besti bestj (S bestsize)
      else (besti, bestj, bestsize)
  end.

(** The two closing loops of the source extend over junk elements only, and
    there are none. *)
Definition find_longest_match (a b : list text) (alo ahi blo bhi : nat) : block :=
  let '(besti, bestj, bestsize) :=
    outer_loop a b (seq alo (ahi - alo)) blo bhi [] (alo, blo, 0%nat) in
  let '(besti, bestj, bestsize) := extend_left a b alo blo besti bestj bestsize in
  extend_right a b bhi (ahi - (besti + bestsize)) besti bestj bestsize.

(** The [while queue] loop of [get_matching_blocks]; the queue is a stack
    whose top is the head of the list. Every turn pops one region and pushes
    at most two strictly smaller ones, so [fuel] bounds the turns. *)
Fixpoint matching_loop (fuel : nat) (a b : list text)
    (queue : list (nat * nat * nat * nat)) (matching_blocks : list block)
    : list block :=
  match fuel, queue with
  | S fuel', (alo, ahi, blo, bhi) :: queue =>
      let '(i, j, k) := find_longest_match a b alo ahi blo bhi in
      if (k =? 0)%nat then matching_loop fuel' a b queue matching_blocks
      else
        let matching_blocks := matching_blocks ++ [(i, j, k)] in
        let queue := if ((alo <? i) && (blo <? j))%nat
                     then (alo, i, blo, j) :: queue else queue in
        let queue := if ((i + k <? ahi) && (j + k <? bhi))%nat
                     then ((i + k)%nat, ahi, (j + k)%nat, bhi) :: queue else queue in
        matching_loop fuel' a b queue matching_blocks
  | _, _ => matching_blocks
  end.

(** Tuple order, for [matching_blocks.sort()]. *)
Definition block_leb (x y : block) : bool :=
  let '(i1, j1, k1) := x in
  let '(i2, j2, k2) := y in
  ((i1 <? i2) || ((i1 =? i2) && ((j1 <? j2) || ((j1 =? j2) && (k1 <=? k2)))))%nat.

Fixpoint insert_block (x : block) (l : list block) : list block :=
  match l with
  | [] => [x]
  | y :: l' => if block_leb x y then x :: l else y :: insert_block x l'
  end.

Definition sort_blocks (l : list block) : list block :=
  fold_right insert_block [] l.

(** Collapsing adjacent equal blocks. *)
Fixpoint collapse_loop (blocks : list block) (i1 j1 k1 : nat)
    (non_adjacent : list block) : list block :=
  match blocks with
  | [] => if (k1 =? 0)%nat then non_adjacent else non_adjacent ++ [(i1, j1, k1)]
  | (i2, j2, k2) :: rest =>
      if ((i1 + k1 =? i2) && (j1 + k1 =? j2))%nat
      then collapse_loop rest i1 j1 (k1 + k2) non_adjacent
      else collapse_loop rest i2 j2 k2
             (if (k1 =? 0)%nat then non_adjacent else non_adjacent ++ [(i1, j1, k1)])
  end.

Definition get_matching_blocks (a b : list text) : list block :=
  let la := length a in
  let lb := length b in
  let matching_blocks := matching_loop (2 * la + 2) a b [(0, la, 0, lb)%nat] [] in
  collapse_loop (sort_blocks matching_blocks) 0 0 0 [] ++ [(la, lb, 0%nat)].

Inductive tag : Type := Replace | Delete | Insert | Equal.

(** An opcode [(tag, i1, i2, j1, j2)]. *)
Definition opcode : Type := tag * nat * nat * nat * nat.

Definition is_equal (t : tag) : bool :=
  match t with Equal => true | _ => false end.

Fixpoint opcodes_loop (blocks : list block) (i j : nat) (answer : list opcode)
    : list opcode :=
  match blocks with
  | [] => answer
  | (ai, bj, size) :: rest =>
      let answer :=
        if ((i <? ai) && (j <? bj))%nat then answer ++ [(Replace, i, ai, j, bj)]
        else if (i <? ai)%nat then answer ++ [(Delete, i, ai, j, bj)]
        else if (j <? bj)%nat then answer ++ [(Insert, i, ai, j, bj)]
        else answer in
      let i := (ai + size)%nat in
      let j := (bj + size)%nat in
      let answer := if (size =? 0)%nat then answer
                    else answer ++ [(Equal, ai, i, bj, j)] in
      opcodes_loop rest i j answer
  end.

Definition get_opcodes (a b : list text) : list opcode :=
  opcodes_loop (get_matching_blocks a b) 0 0 [].

(** [codes[0] = tag, max(i1, i2-n), i2, max(j1, j2-n), j2] when the first
    opcode is [equal]. *)
Definition fix_first (n : nat) (codes : list opcode) : list opcode :=
  match codes with
  | (Equal, i1, i2, j1, j2) :: rest =>
      (Equal, Nat.max i1 (i2 - n), i2, Nat.max j1 (j2 - n), j2) :: rest
  | _ => codes
  end.

(** [codes[-1] = tag, i1, min(i2, i1+n), j1, min(j2, j1+n)] when the last
    opcode is [equal]. *)
Fixpoint fix_last (n : nat) (codes : list opcode) : list opcode :=
  match codes with
  | [] => []
  | [(Equal, i1, i2, j1, j2)] =>
      [(Equal, i1, Nat.min i2 (i1 + n), j1, Nat.min j2 (j1 + n))]
  | c :: rest => c :: fix_last n rest
  end.

(** The grouping loop; a finished group is one [yield]. *)
Fixpoint group_loop (n : nat) (codes : list opcode) (group : list opcode)
    (yielded : list (list opcode)) : list (list opcode) :=
  match codes with
  | [] =>
      match group with
      | [] => yielded
      | [(Equal, _, _, _, _)] => yielded
      | _ => yielded ++ [group]
      end
  | (t, i1, i2, j1, j2) :: rest =>
      if (is_equal t && (n + n <? i2 - i1))%nat then
        let group := group ++ [(t, i1, Nat.min i2 (i1 + n), j1, Nat.min j2 (j1 + n))] in
        group_loop n rest
          [(t, Nat.max i1 (i2 - n), i2, Nat.max j1 (j2 - n), j2)]
          (yielded ++ [group])
      else group_loop n rest (group ++ [(t, i1, i2, j1, j2)]) yielded
  end.

Definition get_grouped_opcodes (a b : list text) (n : nat) : list (list opcode) :=
  let codes := get_opcodes a b in
  let codes := match codes with [] => [(Equal, 0, 1, 0, 1)%nat] | _ => codes end in
  group_loop n (fix_last n (fix_first n codes)) [] [].

Definition format_range_unified (start stop : nat) : text :=
  let beginning := (start + 1)%nat in
  let length := (stop - start)%nat in
  if (length =? 1)%nat then format_nat beginning
  else
    let beginning := if (length =? 0)%nat then (beginning - 1)%nat else beginning in
    format_nat beginning ++ text_of_string "," ++ format_nat length.

Definition opcode_lines (a b : list text) (op : opcode) : list text :=
  let '(t, i1, i2, j1, j2) := op in
  match t with
  | Equal => map (fun line => text_of_string " " ++ line) (slice a i1 i2)
  | Replace =>
      map (fun line => text_of_string "-" ++ line) (slice a i1 i2)
      ++ map (fun line => text_of_string "+" ++ line) (slice b j1 j2)
  | Delete => map (fun line => text_of_string "-" ++ line) (slice a i1 i2)
  | Insert => map (fun line => text_of_string "+" ++ line) (slice b j1 j2)
  end.

Definition group_lines (a b : list text) (lineterm : text) (group : list opcode)
    : list text :=
  match group, last group (Equal, 0, 0, 0, 0)%nat with
  | (_, f1, _, f3, _) :: _, (_, _, l2, _, l4) =>
      (text_of_string "@@ -" ++ format_range_unified f1 l2
       ++ text_of_string " +" ++ format_range_unified f3 l4
       ++ text_of_string " @@" ++ lineterm)
      :: flat_map (opcode_lines a b) group
  | [], _ => []
  end.

(** [unified_diff(a, b, fromfile=.., tofile=.., n=..)] with the default
    empty file dates and [lineterm = "\n"]; the generator's lines in order. *)
Definition unified_diff (a b : list text) (fromfile tofile : text) (n : nat)
    : list text :=
  let lineterm := [10%N] in
  match get_grouped_opcodes a b n with
  | [] => []
  | groups =>
      (text_of_string "--- " ++ fromfile ++ lineterm)
      :: (text_of_string "+++ " ++ tofile ++ lineterm)
      :: flat_map (group_lines a b lineterm) groups
  end.

(** The measure of the loop [matching_loop]: what a queue can still cost: one turn per region, and two more per
    element of [a] in it. *)
Definition queue_cost (queue : list (nat * nat * nat * nat)) : nat :=
  fold_right (fun r n => let '(alo, ahi, _, _) := r in (2 * (ahi - alo) + 1 + n)%nat)
             0%nat queue.

Definition region_ok (r : nat * nat * nat * nat) : Prop :=
  let '(alo, ahi, _, _) := r in (alo <= ahi)%nat.

End Difflib.

(** ** Verification (with a small diff preview) *)

(** What a call leaves behind: a returned value, or [FileNotFoundError]
    with its message. *)
Inductive outcome (A : Type) : Type :=
  | Returned (a : A)
  | FileNotFoundError (msg : text).
Arguments Returned {A} a.
Arguments FileNotFoundError {A} msg.

(** The files a call can read: a path has a content ([f.read()] of it) or
    does not exist. *)
Definition files : Type := text -> option text.

(** The loop [for line in diff_iter], [shown] lines printed so far. *)
Fixpoint print_diff (diff : list text) (shown : nat) (printed : list text)
    : list text :=
  match diff with
  | [] => printed
  | line :: rest =>
      let printed := printed ++ [rstrip_newline line] in
      let shown := S shown in
      if (200 <=? shown)%nat
      then printed ++ [text_of_string "... (diff truncated) ..."]
      else print_diff rest shown printed
  end.

(** The two messages printed before the diff; the second has a line feed
    before and after its sentence. *)
Definition mismatch_header : list text :=
  [text_of_string "Decryption failed: decrypted text does not match original.";
   [10%N] ++ text_of_string "Showing a short unified diff (original -> decrypted):"
     ++ [10%N]].

(** [verify_files]: the returned boolean and the arguments of the [print]
    calls, in order. *)
Definition verify_files (fs : files) (raw_path dec_path : text)
    : outcome (bool * list text) :=
  match fs raw_path with
  | None => FileNotFoundError
              (text_of_string "'" ++ raw_path ++ text_of_string "' not found.")
  | Some raw =>
      match fs dec_path with
      | None => FileNotFoundError
                  (text_of_string "'" ++ dec_path ++ text_of_string "' not found.")
      | Some dec =>
          if text_eqb raw dec then
            Returned (true,
              [text_of_string "Decryption successful! Decrypted text matches the original."])
          else
            let printed := mismatch_header in
            let raw_lines := splitlines_keepends raw in
            let dec_lines := splitlines_keepends dec in
            let diff_iter := Difflib.unified_diff raw_lines dec_lines raw_path dec_path 3 in
            Returned (false, print_diff diff_iter 0 printed)
      end
  end.

(** The file names of the script. *)
Definition RAW_FILE : text := text_of_string "raw_text.txt".
Definition DEC_FILE : text := text_of_string "decrypted_text.txt".

(** No file at all, and a file added to the files there are. *)
Definition no_files : files := fun _ => None.

Definition with_file (fs : files) (path content : text) : files :=
  fun p => if text_eqb p path then Some content else fs p.

(** The two files of a verification run: the original text under
    [RAW_FILE], the recovered text under [DEC_FILE]. *)
Definition scenario_files (original recovered : text) : files :=
  with_file (with_file no_files RAW_FILE original) DEC_FILE recovered.

(** ['0' <= c <= '9'] *)
Definition is_digit (c : char) : bool := ((48 <=? c) && (c <=? 57))%N.

(** Whether a printed line contains a decimal digit other than [1]. *)
Definition names_other_than_line_one (line : text) : bool :=
  existsb (fun c => is_digit c && negb (c =? 49)%N) line.

(** ** File operations

    The files are those of the working directory, a directory of regular
    files without links, which the script may read and replace, on a system
    that tells names apart by their spelling (one file per spelling) and
    whose line separator is ["\n"]. They
    hold what [f.read()] returns for them: texts in which every line ends
    with ["\n"] (universal newlines) and whose characters UTF-8 can encode.
    The file operations take a [file_name], a name without a directory
    part; a path with a directory part is outside the model, since opening
    it can fail for a missing directory and two spellings of it can name
    one file. [json.load] is Python's library: its answer on a file content
    is a parameter of [decrypt_file]. *)

Definition ENC_FILE : text := text_of_string "encrypted_text.txt".
Definition META_FILE : text := text_of_string "encrypted_text_meta.json".

(** What reading makes of the characters of a file: ["\r\n"] and ["\r"]
    become ["\n"]. *)
Fixpoint universal_newlines (t : text) : text :=
  match t with
  | [] => []
  | c :: rest =>
      if (c =? 13)%N then
        match rest with
        | d :: rest' =>
            if (d =? 10)%N then 10%N :: universal_newlines rest'
            else 10%N :: universal_newlines rest
        | [] => [10%N]
        end
      else c :: universal_newlines rest
  end.

(** The bytes of a character in UTF-8, and whether it has an encoding at
    all (a surrogate has none). *)
Definition utf8_length (c : char) : nat :=
  if (c <? 128)%N then 1%nat
  else if (c <? 2048)%N then 2%nat
  else if (c <? 65536)%N then 3%nat
  else 4%nat.

Definition encodable (c : char) : bool :=
  ((c <? 55296) || ((57343 <? c) && (c <=? 1114111)))%N.

(** A name that [open] takes for a file of the working directory itself:
    not empty, not ["."] or [".."], without ["/"] and without the NUL
    character, encodable, and of at most 255 bytes. *)
Definition plain_name (p : text) : bool :=
  negb (text_eqb p []) && negb (text_eqb p (text_of_string "."))
  && negb (text_eqb p (text_of_string ".."))
  && forallb (fun c => negb (c =? 47)%N && negb (c =? 0)%N && encodable c) p
  && (list_sum (map utf8_length p) <=? 255)%nat.

Record file_name : Type := FileName {
  spelling : text;
  spelling_plain : plain_name spelling = true
}.

Definition RAW_NAME : file_name := FileName RAW_FILE eq_refl.
Definition ENC_NAME : file_name := FileName ENC_FILE eq_refl.
Definition META_NAME : file_name := FileName META_FILE eq_refl.
Definition DEC_NAME : file_name := FileName DEC_FILE eq_refl.

(** [with open(path, "w") as f: f.write(content)]: afterwards the file of
    that name reads as [content] read with universal newlines, and the
    files of other names are as before. *)
Definition write_text (fs : files) (path : file_name) (content : text) : files :=
  with_file fs (spelling path) (universal_newlines content).

(** A value [json.load] returns; a float keeps its literal. *)
#[warnings="-register-all"]
Inductive json : Type :=
  | JNull
  | JBool (b : bool)
  | JInt (z : Z)
  | JFloat (literal : text)
  | JString (s : text)
  | JArray (items : list json)
  | JObject (members : list (text * json)).

(** [json.load(mf)]: a value, or an exception with its message. *)
Inductive load_result : Type :=
  | Loaded (v : json)
  | LoadRaised (e : text).

(** One hexadecimal digit, lower case. *)
Definition hex_digit (d : N) : char :=
  (if d <? 10 then 48 + d else 87 + d)%N.

(** The replacement of one character inside a JSON string with
    [ensure_ascii=False]: the quote, the backslash and the characters below
    [0x20] are escaped, the last ones as ["\uXXXX"] unless they have a short
    form. *)
Definition json_escape_char (c : char) : text :=
  let backslash := 92%N in
  if (c =? 34)%N then [backslash; 34%N]
  else if (c =? 92)%N then [backslash; backslash]
  else if (c =? 8)%N then backslash :: text_of_string "b"
  else if (c =? 12)%N then backslash :: text_of_string "f"
  else if (c =? 10)%N then backslash :: text_of_string "n"
  else if (c =? 13)%N then backslash :: text_of_string "r"
  else if (c =? 9)%N then backslash :: text_of_string "t"
  else if (c <? 32)%N then
    backslash :: text_of_string "u00"
    ++ [hex_digit (c / 16); hex_digit (c mod 16)]
  else [c].

(** A string between double quotes (character 34). *)
Definition json_dump_string (s : string) : text :=
  [34%N] ++ flat_map json_escape_char (text_of_string s) ++ [34%N].

Fixpoint json_dump_items (items : list string) : text :=
  match items with
  | [] => []
  | [s] => json_dump_string s
  | s :: rest => json_dump_string s ++ text_of_string ", " ++ json_dump_items rest
  end.

(** The text [json.dump(meta, f, ensure_ascii=False)] writes for a list of
    strings. *)
Definition json_dump (meta : list string) : text :=
  text_of_string "[" ++ json_dump_items meta ++ text_of_string "]".

(** The string a loaded value is when it is compared with the four codes:
    itself when it is a string of characters below 256, and otherwise the
    empty string, which like it equals no code. *)
Fixpoint string_of_text (t : text) : option string :=
  match t with
  | [] => Some EmptyString
  | c :: rest =>
      if (c <? 256)%N then option_map (String (ascii_of_N c)) (string_of_text rest)
      else None
  end.

Definition meta_code_of (v : json) : string :=
  match v with
  | JString s =>
      match string_of_text s with
      | Some code => code
      | None => EmptyString
      end
  | _ => EmptyString
  end.

(** The calls of [print] outside [verify_files], each with the values its
    message is formatted from; [Line] is a line [verify_files] prints. *)
Inductive message : Type :=
  | Encrypted (enc_path meta_path : text)
  | MetadataInvalid
  | MetadataWarning (e : text)
  | MetadataNotFound
  | BruteForceCount (n : nat)
  | Decrypted (dec_path : text)
  | AmbiguousHeader
  | AmbiguousPosition (r : ambiguity)
  | MoreAmbiguous (n : nat)
  | InvalidShifts
  | EncryptionError (e : text)
  | DecryptionError (e : text)
  | VerificationError (e : text)
  | Line (line : text).

Definition not_found (path : text) : text :=
  text_of_string "'" ++ path ++ text_of_string "' not found.".

Definition encrypt_file (fs : files) (raw_path enc_path meta_path : file_name)
    (shift1 shift2 : Z) : outcome (files * list message) :=
  match fs (spelling raw_path) with
  | None => FileNotFoundError (not_found (spelling raw_path))
  | Some raw =>
      let '(enc_chars, meta) := encrypt_text raw shift1 shift2 in
      let fs := write_text fs enc_path enc_chars in
      let fs := write_text fs meta_path (json_dump meta) in
      Returned (fs, [Encrypted (spelling enc_path) (spelling meta_path)])
  end.

(** The metadata [decrypt_file] ends up with, and what it prints on the
    way: the loaded list when the file exists, loads, is a list and has the
    length of the encrypted text; [None] otherwise. *)
Definition load_metadata (json_load : text -> load_result) (fs : files)
    (meta_path : file_name) (enc_text : text)
    : option (list json) * list message :=
  match fs (spelling meta_path) with
  | Some content =>
      match json_load content with
      | Loaded (JArray items) =>
          if (length items =? length enc_text)%nat then (Some items, [])
          else (None, [MetadataInvalid])
      | Loaded _ => (None, [MetadataInvalid])
      | LoadRaised e => (None, [MetadataWarning e])
      end
  | None => (None, [MetadataNotFound])
  end.

(** The closing report of the ambiguities: at most 20 of them, and how many
    more there are. *)
Definition ambiguity_report (ambiguities : list ambiguity) : list message :=
  match ambiguities with
  | [] => []
  | _ =>
      AmbiguousHeader :: map AmbiguousPosition (firstn 20 ambiguities)
      ++ (if (20 <? length ambiguities)%nat
          then [MoreAmbiguous (length ambiguities - 20)] else [])
  end.

Definition decrypt_file (json_load : text -> load_result) (fs : files)
    (enc_path dec_path meta_path : file_name) (shift1 shift2 : Z)
    : outcome (files * list message) :=
  match fs (spelling enc_path) with
  | None => FileNotFoundError (not_found (spelling enc_path))
  | Some enc_text =>
      let '(meta, printed) := load_metadata json_load fs meta_path enc_text in
      match meta with
      | Some meta =>
          let dec_chars :=
            map (fun cm => inverse_by_meta (fst cm) (meta_code_of (snd cm))
                             shift1 shift2)
                (combine enc_text meta) in
          let fs := write_text fs dec_path dec_chars in
          Returned (fs, printed ++ [Decrypted (spelling dec_path)])
      | None =>
          let '(dec_chars, ambiguities) :=
            brute_force_decrypt enc_text shift1 shift2 in
          let printed :=
            match ambiguities with
            | [] => printed
            | _ => printed ++ [BruteForceCount (length ambiguities)]
            end in
          let fs := write_text fs dec_path dec_chars in
          Returned (fs, printed ++ [Decrypted (spelling dec_path)]
                        ++ ambiguity_report ambiguities)
      end
  end.

(** [main], given what the two [int(input(...).strip())] evaluate to:
    an integer, or [None] for a [ValueError]. *)
Definition main (json_load : text -> load_result)
    (input1 input2 : option Z) (fs : files) : files * list message :=
  match input1, input2 with
  | Some s1, Some s2 =>
      match encrypt_file fs RAW_NAME ENC_NAME META_NAME s1 s2 with
      | FileNotFoundError e => (fs, [EncryptionError e])
      | Returned (fs1, printed1) =>
          match decrypt_file json_load fs1 ENC_NAME DEC_NAME META_NAME s1 s2 with
          | FileNotFoundError e => (fs1, printed1 ++ [DecryptionError e])
          | Returned (fs2, printed2) =>
              match verify_files fs2 RAW_FILE DEC_FILE with
              | FileNotFoundError e =>
                  (fs2, printed1 ++ printed2 ++ [VerificationError e])
              | Returned (_, printed3) =>
                  (fs2, printed1 ++ printed2 ++ map Line printed3)
              end
          end
      end
  | _, _ => (fs, [InvalidShifts])
  end.

(** ** The recursive pattern of [code/question-three/turtle-drawing.py]

    The script computes with floats and draws through a turtle. A run is
    modelled by the calls it makes on the turtle and the screen, in order,
    with their arguments; the calls themselves are the turtle library's and
    are taken to return. The float operations are the fields of [FloatOps],
    computed by no one here. An integer used where a float is wanted is
    converted first, and Python raises [OverflowError] when it is beyond
    the range of floats: [fits_float] tells, and [draw_polygon], the one
    place where an integer of any size is converted, converts only what
    fits. Recursion consumes [fuel], one unit per nested call of
    [koch_edge], as the interpreter bounds the nesting of calls; [None] is a
    run that needs more than it is given. *)

Module Koch.

(** Whether [float(n)] has a value: the nearest double of [n] is finite.
    The largest double is [2^1024 - 2^971]; half-way to [2^1024] and above,
    rounding overflows. *)
Definition fits_float (n : Z) : bool := Z.abs n <? 2 ^ 1024 - 2 ^ 970.

(** How a run ends: by returning, or with an [OverflowError] that nothing
    catches. *)
Inductive ending : Type :=
  | Return
  | OverflowError.

Class FloatOps (F : Type) : Type := {
  of_int : Z -> F;            (* an integer used where a float is *)
  fadd : F -> F -> F;
  fsub : F -> F -> F;
  fmul : F -> F -> F;
  fdiv : F -> F -> F;
  fsin : F -> F;              (* math.sin *)
  fcos : F -> F;              (* math.cos *)
  pi : F;                     (* math.pi *)
  three : F;                  (* 3.0 *)
  three_sixty : F;            (* 360.0 *)
  two_and_half : F;           (* 2.5 *)
  fle_zero : F -> bool        (* x <= 0 *)
}.

Section Drawing.

Context {F : Type} `{FloatOps F}.

(** A call on the turtle [t] or on the screen. *)
Inductive call : Type :=
  | Forward (distance : F)
  | Left (angle : F)
  | Right (angle : F)
  | PenUp
  | Goto (x y : F)
  | PenDown
  | ScreenTitle (num_sides depth : Z)
  | ScreenBgcolor
  | ScreenSetup
  | SetWorldCoordinates
  | Speed
  | PenSize
  | Color
  | ExitOnClick.

(** A call of [print]. *)
Inductive notice : Type :=
  | TooFewSides
  | InvalidSides (e : text)
  | InvalidLength (e : text)
  | InvalidDepth (e : text)
  | DrawingThePattern
  | DrawingComplete.

(** What [int(input(...))] or [float(input(...))] evaluates to. *)
Inductive parsed (A : Type) : Type :=
  | Value (a : A)
  | ValueError (e : text).
Arguments Value {A} a.
Arguments ValueError {A} e.

Definition and_then {A B : Type} (x : option A) (k : A -> option B) : option B :=
  match x with
  | Some a => k a
  | None => None
  end.

Fixpoint koch_edge (fuel : nat) (length : F) (depth : Z) : option (list call) :=
  match fuel with
  | O => None
  | S fuel' =>
      if depth =? 0 then Some [Forward length]
      else
        let short_length := fdiv length three in
        and_then (koch_edge fuel' short_length (depth - 1)) (fun e1 =>
        and_then (koch_edge fuel' short_length (depth - 1)) (fun e2 =>
        and_then (koch_edge fuel' short_length (depth - 1)) (fun e3 =>
        and_then (koch_edge fuel' short_length (depth - 1)) (fun e4 =>
        Some (e1 ++ [Left (of_int 60)] ++ e2 ++ [Right (of_int 120)]
              ++ e3 ++ [Left (of_int 60)] ++ e4)))))
  end.

(** The loop [for _ in range(num_sides)], [sides] turns to go. *)
Fixpoint sides_loop (fuel : nat) (sides : nat) (side_length angle : F)
    (depth : Z) (calls : list call) : option (list call) :=
  match sides with
  | O => Some calls
  | S sides' =>
      and_then (koch_edge fuel side_length depth) (fun e =>
      sides_loop fuel sides' side_length angle depth
        (calls ++ e ++ [Right angle]))
  end.

(** The ending of the run, what it printed and the calls it made. The
    first float operation, [360.0 / num_sides], converts [num_sides]. *)
Definition draw_polygon (fuel : nat) (num_sides : Z) (side_length : F)
    (depth : Z) : option (ending * list notice * list call) :=
  if num_sides <? 3 then Some (Return, [TooFewSides], [])
  else if negb (fits_float num_sides) then Some (OverflowError, [], [])
  else
    let angle := fdiv three_sixty (of_int num_sides) in
    let radius :=
      fdiv side_length (fmul (of_int 2) (fsin (fdiv pi (of_int num_sides)))) in
    let screen_width := 800 in
    let screen_height := 600 in
    let center_x := fdiv (of_int screen_width) (of_int 2) in
    let center_y := fdiv (of_int screen_height) (of_int 2) in
    let vertical_offset_multiplier := two_and_half in
    let start_angle_rad := fadd pi (fdiv pi (of_int num_sides)) in
    let start_x := fadd center_x (fmul radius (fcos start_angle_rad)) in
    let start_y :=
      fadd (fadd center_y (fmul radius (fsin start_angle_rad)))
           (fmul radius (fsub vertical_offset_multiplier (of_int 1))) in
    and_then
      (sides_loop fuel (Z.to_nat num_sides) side_length angle depth
         [PenUp; Goto start_x start_y; PenDown])
      (fun calls => Some (Return, [], calls)).

Definition too_few_sides : text :=
  text_of_string "Number of sides must be at least 3.".
Definition not_positive : text :=
  text_of_string "Side length must be positive.".
Definition negative_depth : text :=
  text_of_string "Recursion depth must be non-negative.".

(** [main], given what the three inputs parse to. An [OverflowError] of
    [draw_polygon] ends [main] as well, after the screen is set up and the
    first message printed. *)
Definition main (fuel : nat) (in_sides : parsed Z) (in_length : parsed F)
    (in_depth : parsed Z) : option (ending * list notice * list call) :=
  match in_sides with
  | ValueError e => Some (Return, [InvalidSides e], [])
  | Value num_sides =>
      if num_sides <? 3 then Some (Return, [InvalidSides too_few_sides], [])
      else
        match in_length with
        | ValueError e => Some (Return, [InvalidLength e], [])
        | Value side_length =>
            if fle_zero side_length
            then Some (Return, [InvalidLength not_positive], [])
            else
              match in_depth with
              | ValueError e => Some (Return, [InvalidDepth e], [])
              | Value depth =>
                  if depth <? 0
                  then Some (Return, [InvalidDepth negative_depth], [])
                  else
                    let setup :=
                      [ScreenTitle num_sides depth; ScreenBgcolor; ScreenSetup;
                       SetWorldCoordinates; Speed; PenSize; Color] in
                    and_then (draw_polygon fuel num_sides side_length depth)
                      (fun '(how, printed, calls) =>
                         match how with
                         | Return =>
                             Some (Return,
                                   [DrawingThePattern] ++ printed
                                   ++ [DrawingComplete],
                                   setup ++ calls ++ [ExitOnClick])
                         | OverflowError =>
                             Some (OverflowError,
                                   [DrawingThePattern] ++ printed,
                                   setup ++ calls)
                         end)
              end
        end
  end.

(** The number of segments drawn, and of turns of a given kind. *)
Definition is_forward (c : call) : bool :=
  match c with Forward _ => true | _ => false end.

Definition is_left (c : call) : bool :=
  match c with Left _ => true | _ => false end.

Definition is_right (c : call) : bool :=
  match c with Right _ => true | _ => false end.

Definition moves_pen (c : call) : bool :=
  match c with PenUp | Goto _ _ | PenDown => true | _ => false end.

Definition count (f : call -> bool) (calls : list call) : nat :=
  List.length (filter f calls).

End Drawing.

Arguments Value {A} a.
Arguments ValueError {A} e.

End Koch.

(** * Properties *)

(** ** Arithmetic of the alphabet ring *)

Section Ring.

Lemma py_mod_range a : 0 <= py_mod a 26 < 26.
Proof. unfold py_mod. apply Z.mod_pos_bound. lia. Qed.

Lemma is_lower_spec c : is_lower c = true <-> 97 <= ord c <= 122.
Proof. unfold is_lower, ord. rewrite andb_true_iff, !N.leb_le. lia. Qed.

Lemma is_upper_spec c : is_upper c = true <-> 65 <= ord c <= 90.
Proof. unfold is_upper, ord. rewrite andb_true_iff, !N.leb_le. lia. Qed.

Lemma lower_not_upper c : is_lower c = true -> is_upper c = false.
Proof.
  intros H. apply is_lower_spec in H.
  destruct (is_upper c) eqn:E; [apply is_upper_spec in E; lia | reflexivity].
Qed.

Lemma ord_chr z : 0 <= z -> ord (chr z) = z.
Proof. unfold ord, chr. lia. Qed.

Lemma chr_ord c : chr (ord c) = c.
Proof. unfold ord, chr. lia. Qed.

Lemma shift_char_lower c k :
  is_lower c = true -> shift_char c k = chr (py_mod (ord c - 97 + k) 26 + 97).
Proof. intros H. unfold shift_char. rewrite H. reflexivity. Qed.

Lemma shift_char_upper c k :
  is_upper c = true -> shift_char c k = chr (py_mod (ord c - 65 + k) 26 + 65).
Proof.
  intros H. unfold shift_char.
  destruct (is_lower c) eqn:E.
  - apply lower_not_upper in E. congruence.
  - rewrite H. reflexivity.
Qed.

Lemma shift_char_other c k :
  is_lower c = false -> is_upper c = false -> shift_char c k = c.
Proof. intros H1 H2. unfold shift_char. rewrite H1, H2. reflexivity. Qed.

Lemma shift_char_keeps_lower c k : is_lower c = true -> is_lower (shift_char c k) = true.
Proof.
  intros H. rewrite shift_char_lower by assumption.
  pose proof (py_mod_range (ord c - 97 + k)).
  apply is_lower_spec. rewrite ord_chr; lia.
Qed.

Lemma shift_char_keeps_upper c k : is_upper c = true -> is_upper (shift_char c k) = true.
Proof.
  intros H. rewrite shift_char_upper by assumption.
  pose proof (py_mod_range (ord c - 65 + k)).
  apply is_upper_spec. rewrite ord_chr; lia.
Qed.

(** Shifting by [k] and then by [-k] (or any [k'] with [k + k'] a multiple of
    26) is the identity on letters and on everything else. *)
Lemma shift_char_cancel c k k' :
  py_mod (k + k') 26 = 0 -> shift_char (shift_char c k) k' = c.
Proof.
  intros Hk. unfold py_mod in Hk.
  destruct (is_lower c) eqn:L; [| destruct (is_upper c) eqn:U].
  - rewrite (shift_char_lower (shift_char c k)) by (apply shift_char_keeps_lower; assumption).
    rewrite (shift_char_lower c) by assumption.
    apply is_lower_spec in L. unfold py_mod.
    pose proof (Z.mod_pos_bound (ord c - 97 + k) 26 ltac:(lia)).
    rewrite ord_chr by lia.
    replace ((ord c - 97 + k) mod 26 + 97 - 97 + k') with ((ord c - 97 + k) mod 26 + k') by lia.
    rewrite Zplus_mod_idemp_l.
    replace (ord c - 97 + k + k') with ((ord c - 97) + (k + k')) by lia.
    rewrite Zplus_mod, Hk, Z.add_0_r, Zmod_mod.
    rewrite Z.mod_small by lia.
    replace (ord c - 97 + 97) with (ord c) by lia. apply chr_ord.
  - rewrite (shift_char_upper (shift_char c k)) by (apply shift_char_keeps_upper; assumption).
    rewrite (shift_char_upper c) by assumption.
    apply is_upper_spec in U. unfold py_mod.
    pose proof (Z.mod_pos_bound (ord c - 65 + k) 26 ltac:(lia)).
    rewrite ord_chr by lia.
    replace ((ord c - 65 + k) mod 26 + 65 - 65 + k') with ((ord c - 65 + k) mod 26 + k') by lia.
    rewrite Zplus_mod_idemp_l.
    replace (ord c - 65 + k + k') with ((ord c - 65) + (k + k')) by lia.
    rewrite Zplus_mod, Hk, Z.add_0_r, Zmod_mod.
    rewrite Z.mod_small by lia.
    replace (ord c - 65 + 65) with (ord c) by lia. apply chr_ord.
  - rewrite (shift_char_other c k) by assumption.
    apply shift_char_other; assumption.
Qed.

Lemma shift_char_0 c : shift_char c 0 = c.
Proof.
  destruct (is_lower c) eqn:L; [| destruct (is_upper c) eqn:U].
  - rewrite shift_char_lower by assumption. apply is_lower_spec in L.
    unfold py_mod. rewrite Z.mod_small by lia.
    replace (ord c - 97 + 0 + 97) with (ord c) by lia. apply chr_ord.
  - rewrite shift_char_upper by assumption. apply is_upper_spec in U.
    unfold py_mod. rewrite Z.mod_small by lia.
    replace (ord c - 65 + 0 + 65) with (ord c) by lia. apply chr_ord.
  - now apply shift_char_other.
Qed.

Lemma py_mod_opp_r k : py_mod (k + - k) 26 = 0.
Proof. now rewrite Z.add_opp_diag_r. Qed.

Lemma py_mod_opp_l k : py_mod (- k + k) 26 = 0.
Proof. now rewrite Z.add_opp_diag_l. Qed.

End Ring.

(** ** Classification and the two per-character transforms *)

Section Classes.

Lemma classify_plain_cases c :
  (is_lower c = true /\ (classify_plain c = "L1" \/ classify_plain c = "L2"))%string
  \/ (is_lower c = false /\ is_upper c = true
      /\ (classify_plain c = "U1" \/ classify_plain c = "U2"))%string
  \/ (is_lower c = false /\ is_upper c = false /\ classify_plain c = "O"%string).
Proof.
  unfold classify_plain.
  destruct (is_lower c); [left | destruct (is_upper c); right; [left | right]].
  - split; [reflexivity |].
    destruct ((97 <=? c) && (c <=? 109))%N; [left | right]; reflexivity.
  - do 2 (split; [reflexivity |]).
    destruct ((65 <=? c) && (c <=? 77))%N; [left | right]; reflexivity.
  - repeat split.
Qed.

Lemma classify_plain_ranges c :
  (classify_plain c = "L1"%string
   <-> (char_of_ascii "a" <= c <= char_of_ascii "m")%N)
  /\ (classify_plain c = "L2"%string
      <-> (char_of_ascii "n" <= c <= char_of_ascii "z")%N)
  /\ (classify_plain c = "U1"%string
      <-> (char_of_ascii "A" <= c <= char_of_ascii "M")%N)
  /\ (classify_plain c = "U2"%string
      <-> (char_of_ascii "N" <= c <= char_of_ascii "Z")%N)
  /\ (classify_plain c = "O"%string
      <-> ~ (char_of_ascii "a" <= c <= char_of_ascii "z")%N
          /\ ~ (char_of_ascii "A" <= c <= char_of_ascii "Z")%N).
Proof.
  change (char_of_ascii "a") with 97%N. change (char_of_ascii "m") with 109%N.
  change (char_of_ascii "n") with 110%N. change (char_of_ascii "z") with 122%N.
  change (char_of_ascii "A") with 65%N. change (char_of_ascii "M") with 77%N.
  change (char_of_ascii "N") with 78%N. change (char_of_ascii "Z") with 90%N.
  unfold classify_plain, is_lower, is_upper.
  destruct (N.leb_spec 97 c), (N.leb_spec c 122), (N.leb_spec c 109),
    (N.leb_spec 65 c), (N.leb_spec c 90), (N.leb_spec c 77);
    cbn [andb]; repeat split; intros; try discriminate; try lia.
Qed.

Lemma classify_plain_other c :
  classify_plain c = "O"%string <-> is_lower c = false /\ is_upper c = false.
Proof.
  destruct (classify_plain_cases c) as [[L [E | E]] | [[L [U [E | E]]] | [L [U E]]]];
    rewrite E; split; try discriminate; try tauto; intros [? ?]; congruence.
Qed.

Lemma shift_char_case c k :
  is_lower (shift_char c k) = is_lower c /\ is_upper (shift_char c k) = is_upper c.
Proof.
  destruct (is_lower c) eqn:L; [| destruct (is_upper c) eqn:U].
  - rewrite (lower_not_upper _ L).
    pose proof (shift_char_keeps_lower c k L) as H. rewrite H.
    split; [reflexivity | now apply lower_not_upper].
  - pose proof (shift_char_keeps_upper c k U) as H. rewrite H.
    split; [| reflexivity].
    destruct (is_lower (shift_char c k)) eqn:E; [| reflexivity].
    apply lower_not_upper in E. congruence.
  - rewrite shift_char_other by assumption. now rewrite L, U.
Qed.

End Classes.

Section Transforms.

Variables shift1 shift2 : Z.

Lemma encrypt_char_and_meta_by_code c :
  encrypt_char_and_meta c shift1 shift2
  = (forward_by_code c (classify_plain c) shift1 shift2, classify_plain c).
Proof.
  unfold encrypt_char_and_meta, forward_by_code.
  repeat match goal with |- context [if ?b then _ else _] => destruct b end;
    reflexivity.
Qed.

Lemma encrypt_char_case c :
  is_lower (fst (encrypt_char_and_meta c shift1 shift2)) = is_lower c
  /\ is_upper (fst (encrypt_char_and_meta c shift1 shift2)) = is_upper c.
Proof.
  unfold encrypt_char_and_meta.
  repeat match goal with |- context [if ?b then _ else _] => destruct b end;
    simpl; try apply shift_char_case. split; reflexivity.
Qed.

Lemma encrypt_char_and_meta_code c :
  snd (encrypt_char_and_meta c shift1 shift2) = classify_plain c.
Proof. now rewrite encrypt_char_and_meta_by_code. Qed.

(** Each rule, whatever the code, is [shift_char] by some amount. *)
Lemma forward_by_code_shift code :
  exists k, forall c', forward_by_code c' code shift1 shift2 = shift_char c' k
    /\ inverse_by_meta c' code shift1 shift2 = shift_char c' (- k).
Proof.
  unfold forward_by_code, inverse_by_meta.
  destruct (code =? "L1")%string; [eexists; intros; split; reflexivity |].
  destruct (code =? "L2")%string.
  { exists (- py_mod (py_mod shift1 26 + py_mod shift2 26) 26).
    intros; split; [reflexivity | now rewrite Z.opp_involutive]. }
  destruct (code =? "U1")%string.
  { exists (- py_mod shift1 26).
    intros; split; [reflexivity | now rewrite Z.opp_involutive]. }
  destruct (code =? "U2")%string; [eexists; intros; split; reflexivity |].
  exists 0. intros c'. simpl. now rewrite shift_char_0.
Qed.

Lemma inverse_forward_by_code c code :
  inverse_by_meta (forward_by_code c code shift1 shift2) code shift1 shift2 = c.
Proof.
  destruct (forward_by_code_shift code) as [k Hk].
  rewrite (proj2 (Hk _)), (proj1 (Hk c)).
  apply shift_char_cancel, py_mod_opp_r.
Qed.

Lemma forward_inverse_by_code c code :
  forward_by_code (inverse_by_meta c code shift1 shift2) code shift1 shift2 = c.
Proof.
  destruct (forward_by_code_shift code) as [k Hk].
  rewrite (proj1 (Hk _)), (proj2 (Hk c)).
  apply shift_char_cancel, py_mod_opp_l.
Qed.

Lemma inverse_encrypt_char c :
  inverse_by_meta (fst (encrypt_char_and_meta c shift1 shift2))
                  (snd (encrypt_char_and_meta c shift1 shift2)) shift1 shift2 = c.
Proof. rewrite encrypt_char_and_meta_by_code. apply inverse_forward_by_code. Qed.

(** The encoder loop appends, position by position, the transformed
    character and the class of the source character. *)
Lemma encrypt_loop_spec raw enc_chars meta :
  encrypt_loop raw shift1 shift2 enc_chars meta
  = (enc_chars ++ map (fun ch => fst (encrypt_char_and_meta ch shift1 shift2)) raw,
     meta ++ map classify_plain raw).
Proof.
  revert enc_chars meta.
  induction raw as [| ch rest IH]; intros enc_chars meta; simpl.
  - now rewrite !app_nil_r.
  - rewrite (surjective_pairing (encrypt_char_and_meta ch shift1 shift2)).
    rewrite IH, encrypt_char_and_meta_code, <- !app_assoc. reflexivity.
Qed.

Lemma encrypt_text_spec raw :
  encrypt_text raw shift1 shift2
  = (map (fun ch => fst (encrypt_char_and_meta ch shift1 shift2)) raw,
     map classify_plain raw).
Proof. unfold encrypt_text. now rewrite encrypt_loop_spec. Qed.

Lemma decrypt_encrypt_text raw :
  decrypt_with_meta (fst (encrypt_text raw shift1 shift2))
                    (snd (encrypt_text raw shift1 shift2)) shift1 shift2 = raw.
Proof.
  rewrite encrypt_text_spec. unfold decrypt_with_meta. simpl.
  induction raw as [| ch rest IH]; simpl; [reflexivity |].
  rewrite IH. f_equal.
  rewrite <- encrypt_char_and_meta_code. apply inverse_encrypt_char.
Qed.

End Transforms.

(** ** Round trip, rule inverses, shift reduction, metadata, non-letters *)

(** C1. Round trip under metadata: for every text [T] and every pair of
    signed shifts, encoding [T] character by character with
    [encrypt_char_and_meta] and applying [inverse_by_meta] to each cipher
    character with its recorded code gives [T] back, both through the
    encoder loop followed by the metadata path of the decoder and position
    by position; the pair [(0, 0)] is one instance. *)
Theorem roundtrip_under_metadata (T : text) (shift1 shift2 : Z) :
  decrypt_with_meta (fst (encrypt_text T shift1 shift2))
                    (snd (encrypt_text T shift1 shift2)) shift1 shift2 = T
  /\ map (fun c => inverse_by_meta (fst (encrypt_char_and_meta c shift1 shift2))
                                   (snd (encrypt_char_and_meta c shift1 shift2))
                                   shift1 shift2) T = T
  /\ decrypt_with_meta (fst (encrypt_text T 0 0)) (snd (encrypt_text T 0 0)) 0 0 = T.
Proof.
  split; [apply decrypt_encrypt_text | split; [| apply decrypt_encrypt_text]].
  induction T as [| c T IH]; simpl; [reflexivity |].
  now rewrite inverse_encrypt_char, IH.
Qed.

(** C2. Forward/inverse identity per class: for a class code [K] among L1,
    L2, U1, U2, a letter [c] of that class and shifts in [0, 26), the forward
    rule of [K] followed by the inverse rule of [K] returns [c], and so does
    the inverse rule followed by the forward rule. The forward rule of [K] on
    a letter of class [K] is what [encrypt_char_and_meta] computes. *)
Theorem forward_inverse_identity_per_class (K : string) (c : char) (s1 s2 : Z) :
  In K ["L1"; "L2"; "U1"; "U2"]%string ->
  classify_plain c = K ->
  0 <= s1 < 26 -> 0 <= s2 < 26 ->
  fst (encrypt_char_and_meta c s1 s2) = forward_by_code c K s1 s2
  /\ inverse_by_meta (forward_by_code c K s1 s2) K s1 s2 = c
  /\ forward_by_code (inverse_by_meta c K s1 s2) K s1 s2 = c.
Proof.
  intros _ HK _ _. split; [| split].
  - rewrite encrypt_char_and_meta_by_code, HK. reflexivity.
  - apply inverse_forward_by_code.
  - apply forward_inverse_by_code.
Qed.

Lemma forward_inverse_identity_per_class_witness :
  fst (encrypt_char_and_meta (char_of_ascii "k") 3 5)
  = forward_by_code (char_of_ascii "k") "L1" 3 5
  /\ inverse_by_meta (forward_by_code (char_of_ascii "k") "L1" 3 5) "L1" 3 5
     = char_of_ascii "k"
  /\ forward_by_code (inverse_by_meta (char_of_ascii "k") "L1" 3 5) "L1" 3 5
     = char_of_ascii "k".
Proof.
  apply (forward_inverse_identity_per_class "L1" (char_of_ascii "k") 3 5);
    [left; reflexivity | reflexivity | lia | lia].
Defined.

(** C6. Shift reduction and case preservation: for every pair of signed
    shifts, negative ones included, the reduced shifts [shift1 % 26] and
    [shift2 % 26] lie in [0, 26) (so [-1] reduces to 25, not to [-1]), and
    [shift_char], the forward transform and the inverse transform all return
    a character of the same case alphabet as their input. *)
Theorem reduced_shifts_and_case_preserved (shift1 shift2 : Z) (c : char)
    (k : Z) (code : string) :
  (0 <= py_mod shift1 26 < 26) /\ (0 <= py_mod shift2 26 < 26)
  /\ py_mod (-1) 26 = 25
  /\ is_lower (shift_char c k) = is_lower c
  /\ is_upper (shift_char c k) = is_upper c
  /\ is_lower (fst (encrypt_char_and_meta c shift1 shift2)) = is_lower c
  /\ is_upper (fst (encrypt_char_and_meta c shift1 shift2)) = is_upper c
  /\ is_lower (inverse_by_meta c code shift1 shift2) = is_lower c
  /\ is_upper (inverse_by_meta c code shift1 shift2) = is_upper c.
Proof.
  split; [apply py_mod_range | split; [apply py_mod_range | split; [reflexivity |]]].
  split; [apply shift_char_case | split; [apply shift_char_case |]].
  rewrite encrypt_char_and_meta_by_code. simpl.
  destruct (forward_by_code_shift shift1 shift2 (classify_plain c)) as [k1 H1].
  destruct (forward_by_code_shift shift1 shift2 code) as [k2 H2].
  rewrite (proj1 (H1 c)), (proj2 (H2 c)).
  repeat split; apply shift_char_case.
Qed.

(** C7. Encoder lengths and tags: for every source text and shift pair the
    cipher text and the metadata sequence both have the length of the source,
    and the tag at each position is the class of the source character
    there: [L1] exactly for a to m, [L2] exactly for n to z, [U1] exactly
    for A to M, [U2] exactly for N to Z, and [O] exactly for a character
    that is neither in a to z nor in A to Z. *)
Theorem encoder_lengths_and_tags (T : text) (shift1 shift2 : Z) :
  length (fst (encrypt_text T shift1 shift2)) = length T
  /\ length (snd (encrypt_text T shift1 shift2)) = length T
  /\ snd (encrypt_text T shift1 shift2) = map classify_plain T
  /\ (forall i, nth_error (snd (encrypt_text T shift1 shift2)) i
                = option_map classify_plain (nth_error T i))
  /\ (forall i c,
        nth_error T i = Some c ->
        exists tag,
          nth_error (snd (encrypt_text T shift1 shift2)) i = Some tag
          /\ (tag = "L1"%string
              <-> (char_of_ascii "a" <= c <= char_of_ascii "m")%N)
          /\ (tag = "L2"%string
              <-> (char_of_ascii "n" <= c <= char_of_ascii "z")%N)
          /\ (tag = "U1"%string
              <-> (char_of_ascii "A" <= c <= char_of_ascii "M")%N)
          /\ (tag = "U2"%string
              <-> (char_of_ascii "N" <= c <= char_of_ascii "Z")%N)
          /\ (tag = "O"%string
              <-> ~ (char_of_ascii "a" <= c <= char_of_ascii "z")%N
                  /\ ~ (char_of_ascii "A" <= c <= char_of_ascii "Z")%N)).
Proof.
  rewrite encrypt_text_spec. cbn [fst snd].
  rewrite !length_map.
  split; [reflexivity |]. split; [reflexivity |]. split; [reflexivity |].
  split; [intros i; apply nth_error_map |].
  intros i c Hc. exists (classify_plain c).
  split; [now rewrite nth_error_map, Hc | apply classify_plain_ranges].
Qed.

(** C8. Non-letter invariance: a character classified [O] (exactly the
    characters outside a-z and A-Z) is returned unchanged by [shift_char],
    by the forward transform and by the inverse transform under any code and
    any shift pair, and its metadata tag is [O]. *)
Theorem other_characters_unchanged (c : char) (shift1 shift2 k : Z)
    (code : string) :
  classify_plain c = "O"%string ->
  (is_lower c = false /\ is_upper c = false)
  /\ shift_char c k = c
  /\ encrypt_char_and_meta c shift1 shift2 = (c, "O"%string)
  /\ inverse_by_meta c "O" shift1 shift2 = c
  /\ inverse_by_meta c code shift1 shift2 = c.
Proof.
  intros HO. pose proof (proj1 (classify_plain_other c) HO) as [L U].
  split; [now split |]. split; [now apply shift_char_other |].
  split; [| split].
  - unfold encrypt_char_and_meta. rewrite HO. reflexivity.
  - reflexivity.
  - destruct (forward_by_code_shift shift1 shift2 code) as [k' H].
    rewrite (proj2 (H c)). now apply shift_char_other.
Qed.

Lemma other_characters_unchanged_witness :
  (is_lower (char_of_ascii "7") = false /\ is_upper (char_of_ascii "7") = false)
  /\ shift_char (char_of_ascii "7") 11 = char_of_ascii "7"
  /\ encrypt_char_and_meta (char_of_ascii "7") (-4) 31
     = (char_of_ascii "7", "O"%string)
  /\ inverse_by_meta (char_of_ascii "7") "O" (-4) 31 = char_of_ascii "7"
  /\ inverse_by_meta (char_of_ascii "7") "L2" (-4) 31 = char_of_ascii "7".
Proof.
  apply (other_characters_unchanged (char_of_ascii "7") (-4) 31 11 "L2").
  reflexivity.
Defined.

(** ** The brute-force loop *)

Section BruteForce.

Arguments lower_candidates : simpl never.
Arguments upper_candidates : simpl never.

Lemma candidates_loop_spec forward alphabet c candidates :
  candidates_loop forward alphabet c candidates
  = candidates ++ filter (fun p => (forward p =? c)%N) alphabet.
Proof.
  revert candidates.
  induction alphabet as [| p rest IH]; intros candidates; simpl.
  - now rewrite app_nil_r.
  - rewrite IH. destruct (forward p =? c)%N; [| reflexivity].
    now rewrite <- app_assoc.
Qed.

Lemma brute_force_loop_spec enc_text s1 s2 : forall i decrypted ambiguities,
  brute_force_loop i enc_text s1 s2 decrypted ambiguities
  = (decrypted ++ map (fun c => position_output c s1 s2) enc_text,
     ambiguities
     ++ flat_map (fun ic => position_records (fst ic) (snd ic) s1 s2)
                 (enumerate_from i enc_text)).
Proof.
  unfold enumerate_from.
  induction enc_text as [| c rest IH]; intros i decrypted ambiguities;
    cbn [brute_force_loop length seq combine map flat_map fst snd].
  - now rewrite !app_nil_r.
  - unfold position_output, position_records, position_candidates.
    destruct (is_lower c) eqn:L; [| destruct (is_upper c) eqn:U]; cbn [orb].
    + destruct (length (lower_candidates c s1 s2) =? 1)%nat;
        rewrite IH, <- !app_assoc; reflexivity.
    + destruct (length (upper_candidates c s1 s2) =? 1)%nat;
        rewrite IH, <- !app_assoc; reflexivity.
    + rewrite IH, <- !app_assoc; reflexivity.
Qed.

Lemma brute_force_decrypt_spec enc_text shift1 shift2 :
  brute_force_decrypt enc_text shift1 shift2
  = (map (fun c => position_output c (py_mod shift1 26) (py_mod shift2 26)) enc_text,
     flat_map (fun ic => position_records (fst ic) (snd ic)
                           (py_mod shift1 26) (py_mod shift2 26))
              (enumerate_from 0 enc_text)).
Proof. unfold brute_force_decrypt. now rewrite brute_force_loop_spec. Qed.

Lemma enumerate_from_In {A} (l : list A) i0 i x :
  In (i, x) (enumerate_from i0 l)
  <-> (i0 <= i)%nat /\ nth_error l (i - i0) = Some x.
Proof.
  unfold enumerate_from. revert i0.
  induction l as [| y l IH]; intros i0; simpl.
  - split; [tauto |]. intros [_ H]. destruct (i - i0)%nat; discriminate.
  - rewrite IH. split.
    + intros [H | [Hle H]].
      * inversion H; subst. rewrite Nat.sub_diag. split; [lia | reflexivity].
      * split; [lia |].
        replace (i - i0)%nat with (S (i - S i0)) by lia. exact H.
    + intros [Hle H]. destruct (i - i0)%nat as [| n] eqn:E.
      * left. inversion H; subst. f_equal. lia.
      * right. split; [lia |]. replace (i - S i0)%nat with n by lia. exact H.
Qed.

(** The decrypted list holds, at each index, the output of that turn. *)
Lemma brute_force_output_at enc_text shift1 shift2 i :
  nth_error (fst (brute_force_decrypt enc_text shift1 shift2)) i
  = option_map (fun c => position_output c (py_mod shift1 26) (py_mod shift2 26))
               (nth_error enc_text i).
Proof. rewrite brute_force_decrypt_spec. simpl. apply nth_error_map. Qed.

(** The ambiguity list holds exactly the records of the turns. *)
Lemma brute_force_records enc_text shift1 shift2 r :
  In r (snd (brute_force_decrypt enc_text shift1 shift2))
  <-> exists c, nth_error enc_text (amb_pos r) = Some c
        /\ In r (position_records (amb_pos r) c (py_mod shift1 26) (py_mod shift2 26)).
Proof.
  rewrite brute_force_decrypt_spec. simpl. rewrite in_flat_map. split.
  - intros [[i c] [Hin Hr]]. simpl in Hr.
    assert (amb_pos r = i) as Hi.
    { unfold position_records in Hr.
      destruct (is_lower c || is_upper c); [| destruct Hr].
      destruct (_ =? 1)%nat; [destruct Hr |].
      destruct Hr as [<- | []]. reflexivity. }
    apply enumerate_from_In in Hin. destruct Hin as [_ Hn].
    rewrite Nat.sub_0_r in Hn. exists c. rewrite Hi. split; assumption.
  - intros [c [Hn Hr]]. exists (amb_pos r, c). split; [| exact Hr].
    apply enumerate_from_In. rewrite Nat.sub_0_r. split; [lia | exact Hn].
Qed.

Lemma position_records_In i c s1 s2 r :
  In r (position_records i c s1 s2)
  <-> r = (i, c, position_candidates c s1 s2)
      /\ (is_lower c || is_upper c) = true
      /\ length (position_candidates c s1 s2) <> 1%nat.
Proof.
  unfold position_records.
  destruct (is_lower c || is_upper c).
  - destruct (Nat.eqb_spec (length (position_candidates c s1 s2)) 1) as [E | E]; simpl.
    + split; [tauto | intros [_ [_ H]]; contradiction].
    + split.
      * intros [<- | []]. repeat split. exact E.
      * intros [-> _]. now left.
  - simpl. split; [tauto | intros [_ [H _]]; discriminate].
Qed.

End BruteForce.

(** ** The candidate lists *)

Section Alphabets.

Lemma lower_alphabet_In p : In p lower_alphabet <-> is_lower p = true.
Proof.
  rewrite is_lower_spec. unfold lower_alphabet, py_range.
  rewrite map_map, in_map_iff. unfold ord, chr. split.
  - intros [k [<- Hk]]. apply in_seq in Hk. simpl in Hk. lia.
  - intros H. exists (Z.to_nat (Z.of_N p - 97)). split; [lia |].
    apply in_seq. simpl. lia.
Qed.

Lemma upper_alphabet_In p : In p upper_alphabet <-> is_upper p = true.
Proof.
  rewrite is_upper_spec. unfold upper_alphabet, py_range.
  rewrite map_map, in_map_iff. unfold ord, chr. split.
  - intros [k [<- Hk]]. apply in_seq in Hk. simpl in Hk. lia.
  - intros H. exists (Z.to_nat (Z.of_N p - 65)). split; [lia |].
    apply in_seq. simpl. lia.
Qed.

Lemma same_case_alphabet_In c p :
  In p (same_case_alphabet c)
  <-> (is_lower c = true /\ is_lower p = true)
      \/ (is_upper c = true /\ is_upper p = true).
Proof.
  unfold same_case_alphabet.
  destruct (is_lower c) eqn:L; [| destruct (is_upper c) eqn:U].
  - rewrite lower_alphabet_In, (lower_not_upper _ L). intuition congruence.
  - rewrite upper_alphabet_In. intuition congruence.
  - simpl. intuition congruence.
Qed.

(** The alphabets are listed in strictly increasing order. *)
Lemma range_sorted (f : nat -> N) n i :
  (forall a b, (a < b)%nat -> (f a < f b)%N) ->
  StronglySorted N.lt (map f (seq i n)).
Proof.
  intros Hf. revert i. induction n as [| n IH]; intros i; simpl; constructor.
  - apply IH.
  - apply Forall_forall. intros x Hx. apply in_map_iff in Hx.
    destruct Hx as [k [<- Hk]]. apply in_seq in Hk. apply Hf. lia.
Qed.

Lemma lower_alphabet_sorted : StronglySorted N.lt lower_alphabet.
Proof.
  unfold lower_alphabet, py_range. rewrite map_map.
  apply range_sorted. intros a b Hab. unfold chr, ord. lia.
Qed.

Lemma upper_alphabet_sorted : StronglySorted N.lt upper_alphabet.
Proof.
  unfold upper_alphabet, py_range. rewrite map_map.
  apply range_sorted. intros a b Hab. unfold chr, ord. lia.
Qed.

Lemma same_case_alphabet_sorted c : StronglySorted N.lt (same_case_alphabet c).
Proof.
  unfold same_case_alphabet.
  destruct (is_lower c); [apply lower_alphabet_sorted |].
  destruct (is_upper c); [apply upper_alphabet_sorted | constructor].
Qed.

Lemma filter_sorted (f : char -> bool) l :
  StronglySorted N.lt l -> StronglySorted N.lt (filter f l).
Proof.
  induction 1 as [| x l Hs IH Hall]; simpl; [constructor |].
  destruct (f x); [| exact IH]. constructor; [exact IH |].
  apply Forall_forall. intros y Hy. apply filter_In in Hy.
  rewrite Forall_forall in Hall. now apply Hall.
Qed.

Lemma sorted_NoDup l : StronglySorted N.lt l -> NoDup l.
Proof.
  induction 1 as [| x l Hs IH Hall]; constructor; [| exact IH].
  intros Hin. rewrite Forall_forall in Hall. specialize (Hall x Hin). lia.
Qed.

End Alphabets.

Section Candidates.

Variables shift1 shift2 : Z.

Let s1 := py_mod shift1 26.
Let s2 := py_mod shift2 26.

(** On the letters of one case, the inner loop's encryption of [p] is that
    of [encrypt_char_and_meta]. *)
Lemma lower_forward_encrypt p :
  is_lower p = true ->
  lower_forward p s1 s2 = fst (encrypt_char_and_meta p shift1 shift2).
Proof.
  intros L. unfold lower_forward, encrypt_char_and_meta. fold s1 s2.
  destruct (classify_plain_cases p) as [[_ [E | E]] | [[L' _] | [L' _]]];
    try congruence; rewrite E; reflexivity.
Qed.

Lemma upper_forward_encrypt p :
  is_upper p = true ->
  upper_forward p s1 s2 = fst (encrypt_char_and_meta p shift1 shift2).
Proof.
  intros U. unfold upper_forward, encrypt_char_and_meta. fold s1 s2.
  destruct (classify_plain_cases p) as [[L _] | [[_ [_ [E | E]]] | [_ [U' _]]]];
    try congruence; try (rewrite E; reflexivity).
  apply lower_not_upper in L. congruence.
Qed.

Lemma lower_candidates_filter c :
  lower_candidates c s1 s2
  = filter (fun p => (lower_forward p s1 s2 =? c)%N) lower_alphabet.
Proof. exact (candidates_loop_spec _ lower_alphabet c []). Qed.

Lemma upper_candidates_filter c :
  upper_candidates c s1 s2
  = filter (fun p => (upper_forward p s1 s2 =? c)%N) upper_alphabet.
Proof. exact (candidates_loop_spec _ upper_alphabet c []). Qed.

(** The candidate list of a turn: the letters of the cipher character's
    case that encrypt to it, in alphabetical order. *)
Lemma position_candidates_filter c :
  position_candidates c s1 s2
  = filter (encrypts_to shift1 shift2 c) (same_case_alphabet c).
Proof.
  unfold position_candidates, same_case_alphabet.
  destruct (is_lower c); [| destruct (is_upper c); [| reflexivity]].
  - rewrite lower_candidates_filter.
    apply (filter_ext_in _ (encrypts_to shift1 shift2 c) lower_alphabet).
    intros p Hp. unfold encrypts_to.
    apply lower_alphabet_In in Hp. now rewrite lower_forward_encrypt.
  - rewrite upper_candidates_filter.
    apply (filter_ext_in _ (encrypts_to shift1 shift2 c) upper_alphabet).
    intros p Hp. unfold encrypts_to.
    apply upper_alphabet_In in Hp. now rewrite upper_forward_encrypt.
Qed.

Lemma position_candidates_In c p :
  In p (position_candidates c s1 s2)
  <-> In p (same_case_alphabet c)
      /\ fst (encrypt_char_and_meta p shift1 shift2) = c.
Proof.
  rewrite position_candidates_filter, filter_In. unfold encrypts_to.
  now rewrite N.eqb_eq.
Qed.

Lemma position_candidates_sorted c :
  StronglySorted N.lt (position_candidates c s1 s2).
Proof.
  rewrite position_candidates_filter.
  apply filter_sorted, same_case_alphabet_sorted.
Qed.

End Candidates.

(** ** At most one candidate per half *)

Section Letters.

Lemma shift_char_inj c d k : shift_char c k = shift_char d k -> c = d.
Proof.
  intros H.
  rewrite <- (shift_char_cancel c k (- k)) by apply py_mod_opp_r.
  rewrite <- (shift_char_cancel d k (- k)) by apply py_mod_opp_r.
  now rewrite H.
Qed.

Lemma same_case_same_half p q c :
  In p (same_case_alphabet c) -> In q (same_case_alphabet c) ->
  (first_half p = true /\ first_half q = true)
  \/ (second_half p = true /\ second_half q = true) ->
  classify_plain p = classify_plain q.
Proof.
  rewrite !same_case_alphabet_In. unfold first_half, second_half.
  intros Hp Hq Hh.
  assert (forall x, is_lower x = true -> is_upper x = true -> False) as Hx.
  { intros x L U. apply lower_not_upper in L. congruence. }
  destruct (classify_plain_cases p) as [[Lp [Ep | Ep]] | [[Lp [Up [Ep | Ep]]] | [Lp [Up Ep]]]];
    destruct (classify_plain_cases q) as [[Lq [Eq | Eq]] | [[Lq [Uq [Eq | Eq]]] | [Lq [Uq Eq]]]];
    rewrite Ep, Eq in Hh |- *; simpl in Hh; try reflexivity; exfalso;
    destruct Hh as [[? ?] | [? ?]]; try discriminate;
    destruct Hp as [[? ?] | [? ?]], Hq as [[? ?] | [? ?]];
    solve [congruence | eauto].
Qed.

Lemma letter_half p c :
  In p (same_case_alphabet c) -> second_half p = negb (first_half p).
Proof.
  rewrite same_case_alphabet_In. unfold first_half, second_half. intros Hp.
  destruct (classify_plain_cases p) as [[Lp [Ep | Ep]] | [[Lp [Up [Ep | Ep]]] | [Lp [Up Ep]]]];
    rewrite Ep; try reflexivity.
  exfalso. destruct Hp as [[? ?] | [? ?]]; congruence.
Qed.

Lemma all_equal_length (l : list char) :
  NoDup l -> (forall x y, In x l -> In y l -> x = y) -> (length l <= 1)%nat.
Proof.
  intros Hnd Heq. destruct l as [| x [| y l]]; simpl; try lia.
  exfalso. inversion Hnd as [| ? ? Hx _]; subst. apply Hx.
  rewrite (Heq x y); simpl; auto.
Qed.

Lemma filter_split_length (f g : char -> bool) (l : list char) :
  (forall x, In x l -> g x = negb (f x)) ->
  length l = (length (filter f l) + length (filter g l))%nat.
Proof.
  induction l as [| x l IH]; intros H; simpl; [reflexivity |].
  rewrite (H x) by (simpl; auto).
  rewrite IH by (intros y Hy; apply H; simpl; auto).
  destruct (f x); simpl; lia.
Qed.

End Letters.

Section Halves.

Variables shift1 shift2 : Z.

Let s1 := py_mod shift1 26.
Let s2 := py_mod shift2 26.

(** Two letters of one class that encrypt to the same character are equal. *)
Lemma encrypt_inj_on_class p q :
  classify_plain p = classify_plain q ->
  fst (encrypt_char_and_meta p shift1 shift2)
  = fst (encrypt_char_and_meta q shift1 shift2) ->
  p = q.
Proof.
  intros Hc. rewrite !encrypt_char_and_meta_by_code, Hc. simpl.
  destruct (forward_by_code_shift shift1 shift2 (classify_plain q)) as [k Hk].
  rewrite (proj1 (Hk p)), (proj1 (Hk q)). apply shift_char_inj.
Qed.

Lemma half_candidates_length (half : char -> bool) c :
  half = first_half \/ half = second_half ->
  (length (filter half (position_candidates c s1 s2)) <= 1)%nat.
Proof.
  intros Hhalf. apply all_equal_length.
  - apply sorted_NoDup, filter_sorted, position_candidates_sorted.
  - intros x y Hx Hy. apply filter_In in Hx, Hy.
    destruct Hx as [Hx Hfx], Hy as [Hy Hfy].
    apply position_candidates_In in Hx, Hy.
    destruct Hx as [Hxa Hxe], Hy as [Hya Hye].
    apply encrypt_inj_on_class; [| congruence].
    apply (same_case_same_half x y c Hxa Hya).
    destruct Hhalf; subst half; auto.
Qed.

Lemma position_candidates_length c :
  (length (position_candidates c s1 s2) <= 2)%nat.
Proof.
  rewrite (filter_split_length first_half second_half).
  - pose proof (half_candidates_length first_half c (or_introl eq_refl)).
    pose proof (half_candidates_length second_half c (or_intror eq_refl)).
    lia.
  - intros x Hx. apply position_candidates_In in Hx.
    apply (letter_half x c), Hx.
Qed.

End Halves.

(** ** The brute-force recoverer: decision policy, soundness, candidates *)

Section Recoverer.

Variables (enc_text : text) (shift1 shift2 : Z).

Let s1 := py_mod shift1 26.
Let s2 := py_mod shift2 26.
Let decrypted := fst (brute_force_decrypt enc_text shift1 shift2).
Let ambiguities := snd (brute_force_decrypt enc_text shift1 shift2).

Lemma record_at_position i c :
  nth_error enc_text i = Some c ->
  forall r, In r ambiguities -> amb_pos r = i ->
    r = (i, c, position_candidates c s1 s2)
    /\ (is_lower c || is_upper c) = true
    /\ length (position_candidates c s1 s2) <> 1%nat.
Proof.
  intros Hc r Hr Hi. apply brute_force_records in Hr.
  destruct Hr as [c' [Hc' Hr]]. rewrite Hi in Hc', Hr.
  assert (c' = c) by congruence. subst c'.
  now apply position_records_In in Hr.
Qed.

Lemma position_recorded i c :
  nth_error enc_text i = Some c ->
  (is_lower c || is_upper c) = true ->
  length (position_candidates c s1 s2) <> 1%nat ->
  In (i, c, position_candidates c s1 s2) ambiguities.
Proof.
  intros Hc Hl Hn. apply brute_force_records. exists c. split; [exact Hc |].
  apply position_records_In. auto.
Qed.

Lemma output_at_letter i c :
  nth_error enc_text i = Some c ->
  (is_lower c || is_upper c) = true ->
  nth_error decrypted i = Some (first_or c (position_candidates c s1 s2)).
Proof.
  intros Hc Hl. unfold decrypted. rewrite brute_force_output_at, Hc. simpl.
  unfold position_output. fold s1 s2. now rewrite Hl.
Qed.

Lemma output_at_other i c :
  nth_error enc_text i = Some c ->
  (is_lower c || is_upper c) = false ->
  nth_error decrypted i = Some c.
Proof.
  intros Hc Hl. unfold decrypted. rewrite brute_force_output_at, Hc. simpl.
  unfold position_output. now rewrite Hl.
Qed.

End Recoverer.

Lemma sorted_head_least p rest q :
  StronglySorted N.lt (p :: rest) -> In q (p :: rest) -> (p <= q)%N.
Proof.
  intros Hs [<- | Hq]; [lia |].
  inversion Hs as [| ? ? _ Hall]; subst.
  rewrite Forall_forall in Hall. specialize (Hall q Hq). lia.
Qed.

(** C4. Decision policy of the brute-force recoverer: at a letter position
    [i] holding cipher character [c], let [cands] be the letters of the case
    of [c] that encrypt to [c], in alphabetical order. If [cands] is a single
    letter, that letter is the output at [i] and no ambiguity record has
    position [i]. Otherwise the record [(i, c, cands)] is emitted, it is the
    only record at [i], and the output at [i] is the first (least) candidate,
    or [c] itself when there is none. *)
Theorem brute_force_decision_policy (enc_text : text) (shift1 shift2 : Z)
    (i : nat) (c : char) :
  nth_error enc_text i = Some c ->
  (is_lower c || is_upper c) = true ->
  let cands := filter (encrypts_to shift1 shift2 c) (same_case_alphabet c) in
  let decrypted := fst (brute_force_decrypt enc_text shift1 shift2) in
  let ambiguities := snd (brute_force_decrypt enc_text shift1 shift2) in
  position_candidates c (py_mod shift1 26) (py_mod shift2 26) = cands
  /\ (forall p, cands = [p] ->
        nth_error decrypted i = Some p
        /\ forall r, In r ambiguities -> amb_pos r <> i)
  /\ (length cands <> 1%nat ->
        In (i, c, cands) ambiguities
        /\ (forall r, In r ambiguities -> amb_pos r = i -> r = (i, c, cands))
        /\ nth_error decrypted i = Some (first_or c cands))
  /\ (forall p rest, cands = p :: rest ->
        first_or c cands = p /\ forall q, In q cands -> (p <= q)%N)
  /\ (cands = [] -> first_or c cands = c).
Proof.
  intros Hc Hl cands decrypted ambiguities.
  pose proof (position_candidates_filter shift1 shift2 c) as Hf.
  fold cands in Hf. split; [exact Hf |]. split; [| split; [| split]].
  - intros p Hp. split.
    + unfold decrypted. rewrite (output_at_letter _ _ _ i c Hc Hl), Hf, Hp.
      reflexivity.
    + intros r Hr Hi.
      destruct (record_at_position _ _ _ i c Hc r Hr Hi) as [_ [_ Hn]].
      rewrite Hf, Hp in Hn. now apply Hn.
  - intros Hn. rewrite <- Hf in Hn |- *. split; [| split].
    + now apply position_recorded.
    + intros r Hr Hi. now apply (record_at_position _ _ _ i c Hc r Hr Hi).
    + now apply output_at_letter.
  - intros p rest Hp. split; [now rewrite Hp |].
    intros q Hq. rewrite Hp in Hq.
    apply (sorted_head_least p rest q); [| exact Hq].
    pose proof (position_candidates_sorted shift1 shift2 c) as Hs.
    rewrite Hf, Hp in Hs. exact Hs.
  - intros ->. reflexivity.
Qed.

(** C3. Ambiguity soundness: let [cipher] and [metadata] be the encoder's
    outputs for a plaintext [T]. At every position [i] that does not occur
    in the ambiguity list of [brute_force_decrypt cipher], the brute-force
    output at [i] is [inverse_by_meta] of the cipher character with its
    metadata code, and both are the plaintext character [T[i]]. *)
Theorem ambiguity_soundness (T : text) (shift1 shift2 : Z) (i : nat)
    (e : char) (m : string) :
  let cipher := fst (encrypt_text T shift1 shift2) in
  let metadata := snd (encrypt_text T shift1 shift2) in
  let decrypted := fst (brute_force_decrypt cipher shift1 shift2) in
  let ambiguities := snd (brute_force_decrypt cipher shift1 shift2) in
  nth_error cipher i = Some e ->
  nth_error metadata i = Some m ->
  ~ In i (map amb_pos ambiguities) ->
  nth_error decrypted i = Some (inverse_by_meta e m shift1 shift2)
  /\ nth_error T i = Some (inverse_by_meta e m shift1 shift2).
Proof.
  intros cipher metadata decrypted ambiguities He Hm Hi.
  unfold cipher, metadata in He, Hm. rewrite encrypt_text_spec in He, Hm.
  simpl in He, Hm. rewrite nth_error_map in He, Hm.
  destruct (nth_error T i) as [t |] eqn:Ht; [| discriminate].
  simpl in He, Hm. injection He as He. injection Hm as Hm.
  assert (inverse_by_meta e m shift1 shift2 = t) as Hinv.
  { subst e m. rewrite <- (encrypt_char_and_meta_code shift1 shift2).
    apply inverse_encrypt_char. }
  rewrite Hinv. split; [| reflexivity].
  assert (nth_error cipher i = Some e) as Hce.
  { unfold cipher. rewrite encrypt_text_spec. simpl.
    rewrite nth_error_map, Ht. simpl. now rewrite He. }
  destruct (is_lower e || is_upper e) eqn:Hl.
  - unfold decrypted. rewrite (output_at_letter _ _ _ i e Hce Hl). f_equal.
    set (s1 := py_mod shift1 26). set (s2 := py_mod shift2 26).
    assert (In t (position_candidates e s1 s2)) as Hin.
    { apply position_candidates_In. split; [| exact He].
      apply same_case_alphabet_In.
      destruct (encrypt_char_case shift1 shift2 t) as [HL HU].
      rewrite He in HL, HU. rewrite <- HL, <- HU.
      apply orb_true_iff in Hl. destruct Hl as [Hl | Hl]; rewrite Hl; auto. }
    destruct (Nat.eq_dec (length (position_candidates e s1 s2)) 1) as [H1 | H1].
    + destruct (position_candidates e s1 s2) as [| x [| y l]];
        try discriminate. destruct Hin as [<- | []]. reflexivity.
    + exfalso. apply Hi. apply in_map_iff.
      exists (i, e, position_candidates e s1 s2). split; [reflexivity |].
      now apply position_recorded.
  - unfold decrypted. rewrite (output_at_other _ _ _ i e Hce Hl). f_equal.
    subst e. rewrite encrypt_char_and_meta_by_code in Hl |- *. simpl in *.
    destruct (forward_by_code_shift shift1 shift2 (classify_plain t)) as [k Hk].
    rewrite (proj1 (Hk t)) in Hl |- *.
    destruct (shift_char_case t k) as [HL HU]. rewrite HL, HU in Hl.
    apply orb_false_iff in Hl. destruct Hl. now apply shift_char_other.
Qed.

(** C10. Candidate lists are short: for every cipher character and shift
    pair, the candidate list of a turn of [brute_force_decrypt] holds at
    most one letter of the first half of the alphabet and at most one of the
    second half, in ascending order, so it has at most two letters; and every
    ambiguity record carries the candidate list of its cipher character,
    of length 0 or 2. *)
Theorem candidate_list_at_most_two (enc_text : text) (shift1 shift2 : Z)
    (c : char) :
  let cands := position_candidates c (py_mod shift1 26) (py_mod shift2 26) in
  (is_lower c = true -> cands = lower_candidates c (py_mod shift1 26) (py_mod shift2 26))
  /\ (is_upper c = true -> cands = upper_candidates c (py_mod shift1 26) (py_mod shift2 26))
  /\ (length (filter first_half cands) <= 1)%nat
  /\ (length (filter second_half cands) <= 1)%nat
  /\ StronglySorted N.lt cands
  /\ (length cands <= 2)%nat
  /\ forall r, In r (snd (brute_force_decrypt enc_text shift1 shift2)) ->
       amb_candidates r
       = position_candidates (amb_cipher r) (py_mod shift1 26) (py_mod shift2 26)
       /\ (length (amb_candidates r) = 0%nat \/ length (amb_candidates r) = 2%nat).
Proof.
  intros cands. split; [| split].
  - intros L. unfold cands, position_candidates. now rewrite L.
  - intros U. unfold cands, position_candidates.
    destruct (is_lower c) eqn:L; [| now rewrite U].
    apply lower_not_upper in L. congruence.
  - split; [apply half_candidates_length; auto |].
    split; [apply half_candidates_length; auto |].
    split; [apply position_candidates_sorted |].
    split; [apply position_candidates_length |].
    intros r Hr. apply brute_force_records in Hr. destruct Hr as [c' [_ Hr]].
    apply position_records_In in Hr. destruct Hr as [-> [_ Hn]].
    unfold amb_candidates, amb_cipher. simpl. split; [reflexivity |].
    pose proof (position_candidates_length shift1 shift2 c'). lia.
Qed.

(** C5, amended. Zero-candidate positions share the ambiguity list: a
    letter position with no candidate gets the record [(i, c, [])] in the
    one ambiguity list that also holds the ties, and the cipher character
    itself as output; a tie [p; q] gets the record [(i, c, [p; q])] in the
    same list and [p] as output; the records at a position differ only in
    their candidate list. The recoverer has no second report, so the reading
    that zero-candidate positions are reported apart from ties fails
    ([zero_candidates_listed_with_ties]). *)
Theorem zero_candidates_in_ambiguity_list (enc_text : text)
    (shift1 shift2 : Z) (i : nat) (c : char) :
  nth_error enc_text i = Some c ->
  (is_lower c || is_upper c) = true ->
  let cands := filter (encrypts_to shift1 shift2 c) (same_case_alphabet c) in
  let decrypted := fst (brute_force_decrypt enc_text shift1 shift2) in
  let ambiguities := snd (brute_force_decrypt enc_text shift1 shift2) in
  (cands = [] ->
     In (i, c, []) ambiguities /\ nth_error decrypted i = Some c)
  /\ (forall p q, cands = [p; q] ->
        In (i, c, [p; q]) ambiguities /\ nth_error decrypted i = Some p)
  /\ (forall r, In r ambiguities -> amb_pos r = i ->
        amb_cipher r = c /\ amb_candidates r = cands).
Proof.
  intros Hc Hl cands decrypted ambiguities.
  pose proof (position_candidates_filter shift1 shift2 c) as Hf.
  fold cands in Hf. split; [| split].
  - intros H0. split.
    + rewrite <- H0 at 1. rewrite <- Hf. apply position_recorded; auto.
      rewrite Hf, H0. discriminate.
    + unfold decrypted. rewrite (output_at_letter _ _ _ i c Hc Hl), Hf, H0.
      reflexivity.
  - intros p q H2. split.
    + rewrite <- H2. rewrite <- Hf. apply position_recorded; auto.
      rewrite Hf, H2. discriminate.
    + unfold decrypted. rewrite (output_at_letter _ _ _ i c Hc Hl), Hf, H2.
      reflexivity.
  - intros r Hr Hi.
    destruct (record_at_position _ _ _ i c Hc r Hr Hi) as [-> _].
    unfold amb_cipher, amb_candidates. simpl. now rewrite Hf.
Qed.

(** With shifts [(1, 1)] the cipher text ["al"] has a zero-candidate position
    and a tie, and both are records of the single ambiguity list. *)
Lemma zero_candidates_listed_with_ties :
  brute_force_decrypt (text_of_string "al") 1 1
  = (text_of_string "ak",
     [ (0%nat, char_of_ascii "a", []);
       (1%nat, char_of_ascii "l", [char_of_ascii "k"; char_of_ascii "n"]) ]).
Proof. vm_compute. reflexivity. Qed.

Lemma zero_candidates_in_ambiguity_list_witness :
  In (0%nat, char_of_ascii "a", [])
     (snd (brute_force_decrypt (text_of_string "al") 1 1))
  /\ nth_error (fst (brute_force_decrypt (text_of_string "al") 1 1)) 0
     = Some (char_of_ascii "a").
Proof.
  pose proof (zero_candidates_in_ambiguity_list (text_of_string "al") 1 1 0
                (char_of_ascii "a") eq_refl eq_refl) as H.
  cbv zeta in H. destruct H as [H _]. apply H.
  vm_compute. reflexivity.
Defined.

Lemma brute_force_decision_policy_witness :
  In (1%nat, char_of_ascii "l", [char_of_ascii "k"; char_of_ascii "n"])
     (snd (brute_force_decrypt (text_of_string "al") 1 1))
  /\ nth_error (fst (brute_force_decrypt (text_of_string "E") 3 5)) 0
     = Some (char_of_ascii "H").
Proof.
  split.
  - pose proof (brute_force_decision_policy (text_of_string "al") 1 1 1
                  (char_of_ascii "l") eq_refl eq_refl) as H.
    cbv zeta in H. destruct H as [_ [_ [H _]]].
    assert (length (filter (encrypts_to 1 1 (char_of_ascii "l"))
                      (same_case_alphabet (char_of_ascii "l"))) <> 1%nat) as Hn.
    { vm_compute. discriminate. }
    destruct (H Hn) as [Hin _]. vm_compute in Hin |- *. exact Hin.
  - pose proof (brute_force_decision_policy (text_of_string "E") 3 5 0
                  (char_of_ascii "E") eq_refl eq_refl) as H.
    cbv zeta in H. destruct H as [_ [H _]].
    apply (H (char_of_ascii "H")). vm_compute. reflexivity.
Defined.

Lemma ambiguity_soundness_witness :
  nth_error (fst (brute_force_decrypt
                    (fst (encrypt_text (text_of_string "Hello, World! 123") 3 5))
                    3 5)) 0
  = Some (inverse_by_meta (char_of_ascii "E") "U1" 3 5)
  /\ nth_error (text_of_string "Hello, World! 123") 0
     = Some (inverse_by_meta (char_of_ascii "E") "U1" 3 5).
Proof.
  pose proof (ambiguity_soundness (text_of_string "Hello, World! 123") 3 5 0
                (char_of_ascii "E") "U1") as H.
  cbv zeta in H. apply H; [vm_compute; reflexivity | vm_compute; reflexivity |].
  vm_compute. intros Hin. repeat (destruct Hin as [Hin | Hin]; [discriminate |]).
  exact Hin.
Defined.

(** ** The matching loop of [difflib] ends before its fuel does *)

Section DifflibFuel.

Import Difflib.

Variables a b : list text.

Lemma j2len_lookup_bound j2len j n :
  Forall (fun jk => (snd jk <= n)%nat) j2len -> (j2len_lookup j2len j <= n)%nat.
Proof.
  induction 1 as [| [j' k] l Hk _ IH]; simpl; [lia |].
  destruct (j' =? j)%nat; [exact Hk | exact IH].
Qed.

Lemma inner_loop_bounds alo idxs i blo bhi j2len : forall newj2len bi bj bs,
  (alo <= i)%nat ->
  Forall (fun jk => (snd jk <= i - alo)%nat) j2len ->
  Forall (fun jk => (snd jk <= i + 1 - alo)%nat) newj2len ->
  (alo <= bi)%nat -> (bi + bs <= i + 1)%nat ->
  exists nj bi' bj' bs',
    inner_loop idxs i blo bhi j2len newj2len (bi, bj, bs) = (nj, (bi', bj', bs'))
    /\ Forall (fun jk => (snd jk <= i + 1 - alo)%nat) nj
    /\ (alo <= bi')%nat /\ (bi' + bs' <= i + 1)%nat.
Proof.
  induction idxs as [| j rest IH]; intros newj2len bi bj bs Hi Hj Hn Hb1 Hb2; simpl.
  - exists newj2len, bi, bj, bs. auto.
  - destruct (j <? blo)%nat; [now apply IH |].
    destruct (bhi <=? j)%nat; [exists newj2len, bi, bj, bs; auto |].
    assert (j2len_get_pred j2len j <= i - alo)%nat as Hk.
    { unfold j2len_get_pred. destruct j; [lia |]. now apply j2len_lookup_bound. }
    destruct (bs <? j2len_get_pred j2len j + 1)%nat;
      apply IH; auto; try lia; constructor; auto; simpl; lia.
Qed.

Lemma outer_loop_bounds alo blo bhi n : forall i j2len bi bj bs,
  (alo <= i)%nat ->
  Forall (fun jk => (snd jk <= i - alo)%nat) j2len ->
  (alo <= bi)%nat -> (bi + bs <= i)%nat ->
  exists bi' bj' bs',
    outer_loop a b (seq i n) blo bhi j2len (bi, bj, bs) = (bi', bj', bs')
    /\ (alo <= bi')%nat /\ (bi' + bs' <= i + n)%nat.
Proof.
  induction n as [| n IH]; intros i j2len bi bj bs Hi Hj Hb1 Hb2; simpl.
  - exists bi, bj, bs. repeat split; auto. lia.
  - destruct (inner_loop_bounds alo (b2j_get b (nth i a [])) i blo bhi j2len
                [] bi bj bs Hi Hj (Forall_nil _) Hb1 ltac:(lia))
      as [nj [bi1 [bj1 [bs1 [E [Hnj [H1 H2]]]]]]].
    rewrite E.
    destruct (IH (S i) nj bi1 bj1 bs1) as [bi' [bj' [bs' [E' [H1' H2']]]]];
      try lia.
    + revert Hnj. apply Forall_impl. intros jk Hjk. lia.
    + exists bi', bj', bs'. repeat split; auto. lia.
Qed.

Lemma extend_left_bounds alo blo : forall bi bj bs ahi,
  (alo <= bi)%nat -> (bi + bs <= ahi)%nat ->
  exists bi' bj' bs',
    extend_left a b alo blo bi bj bs = (bi', bj', bs')
    /\ (alo <= bi')%nat /\ (bi' + bs' <= ahi)%nat.
Proof.
  induction bi as [| bi IH]; intros bj bs ahi H1 H2; simpl.
  - exists 0%nat, bj, bs. auto.
  - destruct bj as [| bj]; [exists (S bi), 0%nat, bs; auto |].
    destruct (Nat.ltb_spec alo (S bi)) as [Hlt | Hge]; simpl;
      [| exists (S bi), (S bj), bs; auto].
    destruct ((blo <? S bj)%nat && text_eqb (nth bi a []) (nth bj b []));
      [| exists (S bi), (S bj), bs; auto].
    apply IH; lia.
Qed.

Lemma extend_right_bounds bhi bi bj : forall gap bs ahi,
  (bi + bs + gap <= ahi)%nat ->
  exists bs',
    extend_right a b bhi gap bi bj bs = (bi, bj, bs')
    /\ (bi + bs' <= ahi)%nat /\ (bs <= bs')%nat.
Proof.
  induction gap as [| gap IH]; intros bs ahi H; simpl.
  - exists bs. repeat split; lia.
  - destruct ((bj + bs <? bhi)%nat
              && text_eqb (nth (bi + bs) a []) (nth (bj + bs) b []));
      [| exists bs; repeat split; lia].
    destruct (IH (S bs) ahi ltac:(lia)) as [bs' [E [H1 H2]]].
    exists bs'. repeat split; auto; lia.
Qed.

(** The longest match lies inside the region searched. *)
Lemma find_longest_match_bounds alo ahi blo bhi :
  (alo <= ahi)%nat ->
  exists i j k,
    find_longest_match a b alo ahi blo bhi = (i, j, k)
    /\ (alo <= i)%nat /\ (i + k <= ahi)%nat.
Proof.
  intros Hle. unfold find_longest_match.
  destruct (outer_loop_bounds alo blo bhi (ahi - alo) alo [] alo blo 0
              (le_n _) (Forall_nil _) (le_n _) ltac:(lia))
    as [bi [bj [bs [E [H1 H2]]]]].
  rewrite E.
  destruct (extend_left_bounds alo blo bi bj bs ahi H1 ltac:(lia))
    as [bi' [bj' [bs' [E' [H1' H2']]]]].
  rewrite E'.
  destruct (extend_right_bounds bhi bi' bj' (ahi - (bi' + bs')) bs' ahi
              ltac:(lia)) as [bs'' [E'' [H1'' H2'']]].
  exists bi', bj', bs''. auto.
Qed.

(** With fuel for the cost of the queue, the loop stops on an empty queue:
    more fuel changes nothing. *)
Lemma matching_loop_fuel : forall fuel queue blocks extra,
  Forall region_ok queue ->
  (queue_cost queue <= fuel)%nat ->
  matching_loop (fuel + extra) a b queue blocks
  = matching_loop fuel a b queue blocks.
Proof.
  induction fuel as [| fuel IH]; intros queue blocks extra Hok Hcost.
  - destruct queue as [| [[[alo ahi] blo] bhi] queue]; simpl in Hcost; [| lia].
    destruct extra; reflexivity.
  - destruct queue as [| [[[alo ahi] blo] bhi] queue]; [reflexivity |].
    inversion Hok as [| ? ? Hr Hq]; subst. simpl in Hr, Hcost.
    destruct (find_longest_match_bounds alo ahi blo bhi Hr)
      as [i [j [k [E [H1 H2]]]]].
    cbn [matching_loop Nat.add]. rewrite E.
    destruct (k =? 0)%nat eqn:Ek; [apply IH; [exact Hq | lia] |].
    apply Nat.eqb_neq in Ek.
    apply IH.
    + destruct (Nat.ltb_spec alo i), (blo <? j)%nat,
        (Nat.ltb_spec (i + k) ahi), (j + k <? bhi)%nat; simpl;
        repeat (constructor; [simpl; lia |]); exact Hq.
    + destruct (Nat.ltb_spec alo i), (blo <? j)%nat,
        (Nat.ltb_spec (i + k) ahi), (j + k <? bhi)%nat; simpl; lia.
Qed.

(** [get_matching_blocks] gives its loop enough fuel. *)
Lemma get_matching_blocks_fuel extra :
  matching_loop (2 * length a + 2 + extra) a b
    [(0, length a, 0, length b)%nat] []
  = matching_loop (2 * length a + 2) a b [(0, length a, 0, length b)%nat] [].
Proof.
  apply matching_loop_fuel.
  - constructor; [simpl; lia | constructor].
  - simpl. lia.
Qed.

End DifflibFuel.

(** ** The verifier *)

Lemma text_eqb_eq x y : text_eqb x y = true <-> x = y.
Proof.
  revert y. induction x as [| c x IH]; intros [| d y]; simpl;
    try (split; [discriminate | discriminate]); [tauto |].
  rewrite andb_true_iff, N.eqb_eq, IH. split.
  - intros [-> ->]. reflexivity.
  - intros H. injection H as -> ->. auto.
Qed.

(** C9, amended. The verifier: when both files exist, [verify_files]
    returns [True] exactly when the two texts are equal; on a mismatch it
    prints the two header lines and then the lines of a unified diff of the
    texts split into lines (context 3), cut after 200 lines. For ["abc"]
    against ["abc"] it returns [True]; for ["abc"] against ["abd"] it returns
    [False] and the diff shows line 1, [-abc], replaced by [+abd]. The diff
    is by whole lines: it names no character position and does not isolate
    [c] and [d] ([verify_abd_reports_whole_line]). *)
Theorem verifier_match_iff_equal (fs : files)
    (raw_path dec_path raw dec : text) :
  fs raw_path = Some raw -> fs dec_path = Some dec ->
  (exists printed,
     verify_files fs raw_path dec_path = Returned (text_eqb raw dec, printed)
     /\ (raw <> dec ->
         printed = print_diff
                     (Difflib.unified_diff (splitlines_keepends raw)
                        (splitlines_keepends dec) raw_path dec_path 3)
                     0 mismatch_header))
  /\ (text_eqb raw dec = true <-> raw = dec)
  /\ verify_files (scenario_files (text_of_string "abc") (text_of_string "abc"))
       RAW_FILE DEC_FILE
     = Returned (true,
         [text_of_string "Decryption successful! Decrypted text matches the original."])
  /\ verify_files (scenario_files (text_of_string "abc") (text_of_string "abd"))
       RAW_FILE DEC_FILE
     = Returned (false,
         mismatch_header
         ++ map text_of_string
              ["--- raw_text.txt"; "+++ decrypted_text.txt"; "@@ -1 +1 @@";
               "-abc"; "+abd"]%string).
Proof.
  intros Hraw Hdec. split; [| split; [apply text_eqb_eq | split]].
  - unfold verify_files. rewrite Hraw, Hdec.
    destruct (text_eqb raw dec) eqn:E.
    + eexists. split; [reflexivity |].
      intros Hne. apply text_eqb_eq in E. contradiction.
    + eexists. split; reflexivity.
  - vm_compute. reflexivity.
  - vm_compute. reflexivity.
Qed.

Lemma verifier_match_iff_equal_witness :
  exists printed,
    verify_files (scenario_files (text_of_string "abc") (text_of_string "abd"))
      RAW_FILE DEC_FILE
    = Returned (text_eqb (text_of_string "abc") (text_of_string "abd"), printed)
    /\ (text_of_string "abc" <> text_of_string "abd" ->
        printed = print_diff
                    (Difflib.unified_diff
                       (splitlines_keepends (text_of_string "abc"))
                       (splitlines_keepends (text_of_string "abd"))
                       RAW_FILE DEC_FILE 3)
                    0 mismatch_header).
Proof.
  apply (verifier_match_iff_equal
           (scenario_files (text_of_string "abc") (text_of_string "abd"))
           RAW_FILE DEC_FILE (text_of_string "abc") (text_of_string "abd"));
    reflexivity.
Defined.

(** For ["abc"] against ["abd"] the printed diff is the file header, the
    hunk header of line 1 and the two whole lines; no printed line names a
    number other than the line number 1, and no diff line holds the single
    character [c] or [d]. *)
Lemma verify_abd_reports_whole_line :
  exists printed,
    verify_files (scenario_files (text_of_string "abc") (text_of_string "abd"))
      RAW_FILE DEC_FILE = Returned (false, printed)
    /\ skipn 2 printed
       = map text_of_string
           ["--- raw_text.txt"; "+++ decrypted_text.txt"; "@@ -1 +1 @@";
            "-abc"; "+abd"]%string
    /\ existsb names_other_than_line_one printed = false
    /\ existsb (text_eqb (text_of_string "-c")) printed = false
    /\ existsb (text_eqb (text_of_string "+d")) printed = false.
Proof. eexists. split; [vm_compute; reflexivity |]. repeat split. Qed.

(** * Further properties of the script *)

(** ** Shifts count modulo 26 *)

Section ShiftPairs.

Lemma py_mod_add_26 s a : py_mod (s + 26 * a) 26 = py_mod s 26.
Proof. unfold py_mod. rewrite Z.mul_comm. apply Z_mod_plus_full. Qed.

Lemma py_mod_idem s : py_mod (py_mod s 26) 26 = py_mod s 26.
Proof. unfold py_mod. apply Zmod_mod. Qed.

Lemma encrypt_char_reduced c shift1 shift2 :
  encrypt_char_and_meta c (py_mod shift1 26) (py_mod shift2 26)
  = encrypt_char_and_meta c shift1 shift2.
Proof. unfold encrypt_char_and_meta. now rewrite !py_mod_idem. Qed.

Lemma shift_char_upper_A k : shift_char 65%N k = chr (py_mod k 26 + 65).
Proof. rewrite shift_char_upper by reflexivity. reflexivity. Qed.

Lemma shift_char_lower_n k : shift_char 110%N k = chr (py_mod (13 + k) 26 + 97).
Proof. rewrite shift_char_lower by reflexivity. reflexivity. Qed.

End ShiftPairs.

(** X1. Only the residues of the two shifts modulo 26 matter: adding multiples
    of 26 to either shift changes neither the encryption of a character, nor
    its inverse under any code, nor the encoder's output, nor what the
    brute-force recoverer returns. *)
Theorem shifts_count_modulo_26 (shift1 shift2 a b : Z) :
  (forall c, encrypt_char_and_meta c (shift1 + 26 * a) (shift2 + 26 * b)
             = encrypt_char_and_meta c shift1 shift2)
  /\ (forall c code, inverse_by_meta c code (shift1 + 26 * a) (shift2 + 26 * b)
                     = inverse_by_meta c code shift1 shift2)
  /\ (forall T, encrypt_text T (shift1 + 26 * a) (shift2 + 26 * b)
                = encrypt_text T shift1 shift2)
  /\ (forall enc_text,
        brute_force_decrypt enc_text (shift1 + 26 * a) (shift2 + 26 * b)
        = brute_force_decrypt enc_text shift1 shift2).
Proof.
  assert (forall c, encrypt_char_and_meta c (shift1 + 26 * a) (shift2 + 26 * b)
                    = encrypt_char_and_meta c shift1 shift2) as He.
  { intros c. unfold encrypt_char_and_meta. now rewrite !py_mod_add_26. }
  split; [exact He |]. split; [| split].
  - intros c code. unfold inverse_by_meta. now rewrite !py_mod_add_26.
  - intros T. rewrite !encrypt_text_spec. f_equal.
    apply map_ext. intros c. now rewrite He.
  - intros enc_text. unfold brute_force_decrypt. now rewrite !py_mod_add_26.
Qed.

(** X2. The encoder leaves every character unchanged exactly when both shifts
    are multiples of 26. *)
Theorem encryption_is_identity_iff_zero_shifts (shift1 shift2 : Z) :
  (forall c, fst (encrypt_char_and_meta c shift1 shift2) = c)
  <-> py_mod shift1 26 = 0 /\ py_mod shift2 26 = 0.
Proof.
  split.
  - intros H.
    pose proof (H 65%N) as HA. pose proof (H 110%N) as Hn.
    unfold encrypt_char_and_meta in HA, Hn. simpl in HA, Hn.
    rewrite shift_char_upper_A in HA. rewrite shift_char_lower_n in Hn.
    pose proof (py_mod_range shift1) as R1.
    pose proof (py_mod_range shift2) as R2.
    set (s1 := py_mod shift1 26) in *. set (s2 := py_mod shift2 26) in *.
    pose proof (py_mod_range (- s1)) as R3.
    pose proof (py_mod_range (13 + - py_mod (s1 + s2) 26)) as R4.
    pose proof (py_mod_range (s1 + s2)) as R5.
    unfold chr in HA, Hn. clearbody s1 s2.
    assert (py_mod (- s1) 26 = 0) as E1 by lia.
    assert (py_mod (13 + - py_mod (s1 + s2) 26) 26 = 13) as E2 by lia.
    unfold py_mod in E1, E2, R5.
    assert (s1 = 0) as Hs1.
    { apply Z.mod_divide in E1; [| lia]. destruct E1 as [q Hq]. lia. }
    split; [exact Hs1 |].
    rewrite Hs1, Z.add_0_l in E2.
    rewrite (Z.mod_small s2 26) in E2 by lia.
    destruct (Z.eq_dec s2 0) as [-> | Hne]; [reflexivity |].
    exfalso.
    destruct (Z_le_gt_dec s2 13).
    + rewrite (Z.mod_small (13 + - s2) 26) in E2 by lia. lia.
    + replace (13 + - s2) with (39 - s2 + (-1) * 26) in E2 by lia.
      rewrite Z_mod_plus_full, (Z.mod_small (39 - s2) 26) in E2 by lia. lia.
  - intros [H1 H2] c. rewrite encrypt_char_and_meta_by_code. simpl.
    unfold forward_by_code. rewrite H1, H2. simpl.
    repeat match goal with |- context [if ?b then _ else _] => destruct b end;
      try reflexivity; apply shift_char_0.
Qed.

(** ** What the brute-force recoverer always returns *)

Section RecovererShape.

Variables shift1 shift2 : Z.

Let s1 := py_mod shift1 26.
Let s2 := py_mod shift2 26.

Lemma upper_not_lower c : is_upper c = true -> is_lower c = false.
Proof.
  intros U. destruct (is_lower c) eqn:L; [| reflexivity].
  apply lower_not_upper in L. congruence.
Qed.

Lemma candidate_case c p :
  In p (position_candidates c s1 s2) ->
  is_lower p = is_lower c /\ is_upper p = is_upper c.
Proof.
  intros Hp. apply position_candidates_In in Hp. destruct Hp as [Hp _].
  apply same_case_alphabet_In in Hp.
  destruct Hp as [[Hc Hp] | [Hc Hp]].
  - rewrite Hc, Hp, (lower_not_upper c Hc), (lower_not_upper p Hp). auto.
  - rewrite Hc, Hp, (upper_not_lower c Hc), (upper_not_lower p Hp). auto.
Qed.

Lemma position_output_case c :
  is_lower (position_output c s1 s2) = is_lower c
  /\ is_upper (position_output c s1 s2) = is_upper c
  /\ ((is_lower c || is_upper c) = false -> position_output c s1 s2 = c).
Proof.
  unfold position_output. destruct (is_lower c || is_upper c) eqn:Hl.
  - destruct (position_candidates c s1 s2) as [| p rest] eqn:E; simpl.
    + repeat split.
    + destruct (candidate_case c p) as [H1 H2]; [rewrite E; now left |].
      repeat split; auto; discriminate.
  - repeat split.
Qed.

Lemma position_records_length i c :
  (length (position_records i c s1 s2) <= 1)%nat.
Proof.
  unfold position_records.
  destruct (is_lower c || is_upper c); [| simpl; lia].
  destruct (_ =? 1)%nat; simpl; lia.
Qed.

Lemma position_records_pos i c r :
  In r (position_records i c s1 s2) -> amb_pos r = i.
Proof. intros H. apply position_records_In in H. now destruct H as [-> _]. Qed.

Lemma records_sorted enc_text : forall i,
  StronglySorted lt
    (map amb_pos (flat_map (fun ic => position_records (fst ic) (snd ic) s1 s2)
                           (enumerate_from i enc_text)))
  /\ Forall (fun r => (i <= amb_pos r < i + length enc_text)%nat)
       (flat_map (fun ic => position_records (fst ic) (snd ic) s1 s2)
                 (enumerate_from i enc_text))
  /\ (length (flat_map (fun ic => position_records (fst ic) (snd ic) s1 s2)
                       (enumerate_from i enc_text)) <= length enc_text)%nat.
Proof.
  unfold enumerate_from.
  induction enc_text as [| c rest IH]; intros i;
    cbn [length seq combine flat_map fst snd map].
  - repeat split; [constructor | constructor | simpl; lia].
  - destruct (IH (S i)) as [Hs [Hb Hl]].
    pose proof (position_records_length i c) as H1.
    destruct (position_records i c s1 s2) as [| r [| r' l]] eqn:E;
      [| | simpl in H1; lia]; cbn [app map length].
    + split; [exact Hs |]. split; [| lia].
      revert Hb. apply Forall_impl. intros r Hr. lia.
    + assert (amb_pos r = i) as Hi.
      { apply (position_records_pos i c). rewrite E. now left. }
      split; [| split; [| lia]].
      * constructor; [exact Hs |].
        rewrite Forall_map. revert Hb. apply Forall_impl. intros r0 Hr. lia.
      * constructor; [lia |].
        revert Hb. apply Forall_impl. intros r0 Hr. lia.
Qed.

End RecovererShape.

(** X3. The recoverer returns one character per cipher character, whatever the
    cipher text: a non-letter is copied, and a letter is answered by a
    letter of the same case. *)
Theorem brute_force_output_shape (enc_text : text) (shift1 shift2 : Z) :
  length (fst (brute_force_decrypt enc_text shift1 shift2)) = length enc_text
  /\ Forall2 (fun c d => is_lower d = is_lower c /\ is_upper d = is_upper c
                         /\ ((is_lower c || is_upper c) = false -> d = c))
       enc_text (fst (brute_force_decrypt enc_text shift1 shift2)).
Proof.
  rewrite brute_force_decrypt_spec. simpl. split; [apply length_map |].
  induction enc_text as [| c rest IH]; simpl; constructor; [| exact IH].
  apply position_output_case.
Qed.

(** X4. The ambiguity list runs through the cipher text once: its positions are
    strictly increasing and inside the text, so no position is recorded
    twice and there are at most as many records as characters; each record
    carries the cipher character of its position, always a letter. *)
Theorem ambiguity_list_ordered (enc_text : text) (shift1 shift2 : Z) :
  let ambiguities := snd (brute_force_decrypt enc_text shift1 shift2) in
  StronglySorted lt (map amb_pos ambiguities)
  /\ (length ambiguities <= length enc_text)%nat
  /\ Forall (fun r => nth_error enc_text (amb_pos r) = Some (amb_cipher r)
                      /\ (is_lower (amb_cipher r) || is_upper (amb_cipher r)) = true)
       ambiguities.
Proof.
  intros ambiguities.
  destruct (records_sorted shift1 shift2 enc_text 0) as [Hs [_ Hl]].
  unfold ambiguities. rewrite brute_force_decrypt_spec. simpl.
  split; [exact Hs |]. split; [exact Hl |].
  apply Forall_forall. intros r Hr.
  assert (In r (snd (brute_force_decrypt enc_text shift1 shift2))) as Hin.
  { rewrite brute_force_decrypt_spec. exact Hr. }
  apply brute_force_records in Hin. destruct Hin as [c [Hc Hrec]].
  apply position_records_In in Hrec. destruct Hrec as [-> [Hl' _]].
  unfold amb_cipher, amb_pos in *. simpl in *. auto.
Qed.

(** ** Recovery of a text the encoder produced *)

Section GenuineCipher.

Variables shift1 shift2 : Z.

Let s1 := py_mod shift1 26.
Let s2 := py_mod shift2 26.

(** The plaintext letter is always among the candidates of its cipher
    character. *)
Lemma plaintext_is_candidate t :
  (is_lower t || is_upper t) = true ->
  In t (position_candidates (fst (encrypt_char_and_meta t shift1 shift2)) s1 s2).
Proof.
  intros Hl. apply position_candidates_In. split; [| reflexivity].
  apply same_case_alphabet_In.
  destruct (encrypt_char_case shift1 shift2 t) as [HL HU].
  rewrite HL, HU. apply orb_true_iff in Hl.
  destruct Hl as [Hl | Hl]; rewrite Hl; auto.
Qed.

Lemma encrypt_other t :
  (is_lower t || is_upper t) = false ->
  fst (encrypt_char_and_meta t shift1 shift2) = t.
Proof.
  intros Hl. apply orb_false_iff in Hl.
  pose proof (proj2 (classify_plain_other t) Hl) as HO.
  unfold encrypt_char_and_meta. rewrite HO. reflexivity.
Qed.

End GenuineCipher.

(** X5. On a cipher text the encoder produced with the same shifts, every
    ambiguity is a true tie: each record holds exactly two candidates, and
    the plaintext character of its position is one of them. *)
Theorem genuine_cipher_ambiguities_are_ties (T : text) (shift1 shift2 : Z) :
  let cipher := fst (encrypt_text T shift1 shift2) in
  Forall (fun r => length (amb_candidates r) = 2%nat
                   /\ exists t, nth_error T (amb_pos r) = Some t
                                /\ In t (amb_candidates r))
         (snd (brute_force_decrypt cipher shift1 shift2)).
Proof.
  intros cipher. apply Forall_forall. intros [[i c0] cands] Hr.
  apply brute_force_records in Hr. destruct Hr as [c [Hc Hrec]].
  apply position_records_In in Hrec. destruct Hrec as [Hr [Hl Hn]].
  unfold amb_pos, amb_candidates in *. cbn [fst snd] in *.
  injection Hr as -> ->.
  unfold cipher in Hc. rewrite encrypt_text_spec in Hc. cbn [fst] in Hc.
  rewrite nth_error_map in Hc.
  destruct (nth_error T i) as [t |] eqn:Ht; [| discriminate].
  cbn [option_map] in Hc. injection Hc as Hc. subst c.
  assert ((is_lower t || is_upper t) = true) as Hlt.
  { destruct (encrypt_char_case shift1 shift2 t) as [HL HU].
    now rewrite <- HL, <- HU. }
  pose proof (plaintext_is_candidate shift1 shift2 t Hlt) as Hin.
  pose proof (position_candidates_length shift1 shift2
                (fst (encrypt_char_and_meta t shift1 shift2))) as Hle.
  split.
  - destruct (position_candidates _ _ _) as [| x [| y l]]; simpl in *;
      try lia; contradiction.
  - exists t. auto.
Qed.

(** X6. The text the recoverer returns for a cipher text the encoder produced
    encrypts, with the same shifts, to that cipher text again: whatever it
    guesses at a tie, the guess is consistent with the cipher text. *)
Theorem recovered_text_encrypts_to_cipher (T : text) (shift1 shift2 : Z) :
  let cipher := fst (encrypt_text T shift1 shift2) in
  fst (encrypt_text (fst (brute_force_decrypt cipher shift1 shift2))
                    shift1 shift2)
  = cipher.
Proof.
  intros cipher. unfold cipher.
  rewrite brute_force_decrypt_spec, !encrypt_text_spec. simpl.
  rewrite !map_map. apply map_ext. intros t.
  set (c := fst (encrypt_char_and_meta t shift1 shift2)).
  unfold position_output.
  destruct (is_lower c || is_upper c) eqn:Hl.
  - assert ((is_lower t || is_upper t) = true) as Hlt.
    { destruct (encrypt_char_case shift1 shift2 t) as [HL HU].
      fold c in HL, HU. now rewrite <- HL, <- HU. }
    pose proof (plaintext_is_candidate shift1 shift2 t Hlt) as Hin.
    fold c in Hin.
    destruct (position_candidates c (py_mod shift1 26) (py_mod shift2 26))
      as [| p rest] eqn:E; [destruct Hin |].
    simpl. assert (In p (position_candidates c (py_mod shift1 26)
                           (py_mod shift2 26))) as Hp by (rewrite E; now left).
    apply position_candidates_In in Hp. apply Hp.
  - apply encrypt_other. exact Hl.
Qed.

(** ** When the recoverer is exact *)

Section ExactRecovery.

Variables shift1 shift2 : Z.

Let s1 := py_mod shift1 26.
Let s2 := py_mod shift2 26.

Let cands (t : char) : list char :=
  position_candidates (fst (encrypt_char_and_meta t shift1 shift2)) s1 s2.

Lemma single_candidate_is_plaintext t :
  (is_lower t || is_upper t) = true ->
  length (cands t) = 1%nat -> cands t = [t].
Proof.
  intros Hl H1. pose proof (plaintext_is_candidate shift1 shift2 t Hl) as Hin.
  fold s1 s2 in Hin. fold (cands t) in Hin.
  destruct (cands t) as [| x [| y l]]; try discriminate.
  destruct Hin as [-> | []]. reflexivity.
Qed.

Lemma exact_on_texts (P : char -> Prop) :
  (forall t, P t -> (is_lower t || is_upper t) = true -> length (cands t) = 1%nat) ->
  forall T i, Forall P T ->
    map (fun c => position_output c s1 s2)
        (map (fun t => fst (encrypt_char_and_meta t shift1 shift2)) T) = T
    /\ flat_map (fun ic => position_records (fst ic) (snd ic) s1 s2)
         (enumerate_from i
            (map (fun t => fst (encrypt_char_and_meta t shift1 shift2)) T)) = [].
Proof.
  intros Hu T. unfold enumerate_from.
  induction T as [| t T IH]; intros i HP; [split; reflexivity |].
  inversion HP as [| ? ? Ht HT]; subst.
  destruct (IH (S i) HT) as [IH1 IH2].
  cbn [map length seq combine flat_map fst snd]. rewrite IH1, IH2, app_nil_r.
  unfold position_output, position_records.
  destruct (encrypt_char_case shift1 shift2 t) as [HL HU]. rewrite HL, HU.
  destruct (is_lower t || is_upper t) eqn:Hl.
  - fold (cands t).
    rewrite (single_candidate_is_plaintext t Hl (Hu t Ht Hl)). split; reflexivity.
  - rewrite (encrypt_other shift1 shift2 t Hl). split; reflexivity.
Qed.

Lemma exact_recovery_iff (P : char -> Prop) :
  (forall T, Forall P T ->
     brute_force_decrypt (fst (encrypt_text T shift1 shift2)) shift1 shift2
     = (T, []))
  <-> (forall t, P t -> (is_lower t || is_upper t) = true ->
         length (cands t) = 1%nat).
Proof.
  split.
  - intros H t Ht Hl.
    specialize (H [t] (Forall_cons _ Ht (Forall_nil _))).
    rewrite brute_force_decrypt_spec, encrypt_text_spec in H.
    cbn [fst snd map enumerate_from length seq combine flat_map] in H.
    injection H as _ H. rewrite app_nil_r in H.
    unfold position_records in H.
    destruct (encrypt_char_case shift1 shift2 t) as [HL HU].
    rewrite HL, HU, Hl in H. fold s1 s2 in H. fold (cands t) in H.
    destruct (Nat.eqb_spec (length (cands t)) 1); [assumption | discriminate].
  - intros Hu T HT.
    rewrite brute_force_decrypt_spec, encrypt_text_spec. cbn [fst].
    destruct (exact_on_texts P Hu T 0 HT) as [H1 H2].
    fold s1 s2. now rewrite H1, H2.
Qed.

Lemma uniquely_recovered_spec alphabet :
  uniquely_recovered alphabet shift1 shift2 = true
  <-> forall t, In t alphabet -> length (cands t) = 1%nat.
Proof.
  unfold uniquely_recovered. rewrite forallb_forall.
  split; intros H t Ht; specialize (H t Ht); now apply Nat.eqb_eq.
Qed.

Lemma uniquely_recovered_reduced alphabet :
  uniquely_recovered alphabet s1 s2 = uniquely_recovered alphabet shift1 shift2.
Proof.
  unfold uniquely_recovered. induction alphabet as [| t l IH]; simpl;
    [reflexivity |].
  rewrite IH. unfold s1, s2. now rewrite encrypt_char_reduced, !py_mod_idem.
Qed.

End ExactRecovery.

Lemma py_range_In lo hi z : In z (py_range lo hi) <-> lo <= z < hi.
Proof.
  unfold py_range. rewrite in_map_iff. split.
  - intros [k [<- Hk]]. apply in_seq in Hk. lia.
  - intros H. exists (Z.to_nat (z - lo)). split; [lia |]. apply in_seq. lia.
Qed.

(** The table of the 26 x 26 reduced shift pairs, computed. *)
Lemma recovery_table :
  forallb (fun r1 =>
    forallb (fun r2 =>
      Bool.eqb (uniquely_recovered lower_alphabet r1 r2)
               ((r1 * r2 + r1 + r2) mod 26 =? 0)
      && Bool.eqb (uniquely_recovered upper_alphabet r1 r2)
                  ((r1 + r2 * r2) mod 26 =? 0)
      && Bool.eqb (((r1 * r2 + r1 + r2) mod 26 =? 0)
                   && ((r1 + r2 * r2) mod 26 =? 0))
                  ((r1 =? 0) && (r2 =? 0)))
      (py_range 0 26)) (py_range 0 26) = true.
Proof. vm_compute. reflexivity. Qed.

Lemma recovery_table_at r1 r2 :
  0 <= r1 < 26 -> 0 <= r2 < 26 ->
  uniquely_recovered lower_alphabet r1 r2 = ((r1 * r2 + r1 + r2) mod 26 =? 0)
  /\ uniquely_recovered upper_alphabet r1 r2 = ((r1 + r2 * r2) mod 26 =? 0)
  /\ (((r1 * r2 + r1 + r2) mod 26 =? 0) && ((r1 + r2 * r2) mod 26 =? 0)
      = ((r1 =? 0) && (r2 =? 0))).
Proof.
  intros H1 H2. pose proof recovery_table as Ht.
  rewrite forallb_forall in Ht. specialize (Ht r1 (proj2 (py_range_In 0 26 r1) H1)).
  rewrite forallb_forall in Ht. specialize (Ht r2 (proj2 (py_range_In 0 26 r2) H2)).
  apply andb_true_iff in Ht. destruct Ht as [Ht H3].
  apply andb_true_iff in Ht. destruct Ht as [Ha Hb].
  apply Bool.eqb_prop in Ha, Hb, H3. auto.
Qed.

Lemma reduce_lower_criterion a b :
  (a mod 26 * (b mod 26) + a mod 26 + b mod 26) mod 26 = (a * b + a + b) mod 26.
Proof.
  pose proof (Z.div_mod a 26 ltac:(lia)) as Ha.
  pose proof (Z.div_mod b 26 ltac:(lia)) as Hb.
  set (ra := a mod 26) in *. set (rb := b mod 26) in *.
  set (qa := a / 26) in *. set (qb := b / 26) in *.
  clearbody ra rb qa qb. subst a b.
  replace ((26 * qa + ra) * (26 * qb + rb) + (26 * qa + ra) + (26 * qb + rb))
    with (ra * rb + ra + rb + (26 * qa * qb + qa * rb + ra * qb + qa + qb) * 26)
    by ring.
  now rewrite Z_mod_plus_full.
Qed.

Lemma reduce_upper_criterion a b :
  (a mod 26 + b mod 26 * (b mod 26)) mod 26 = (a + b * b) mod 26.
Proof.
  pose proof (Z.div_mod a 26 ltac:(lia)) as Ha.
  pose proof (Z.div_mod b 26 ltac:(lia)) as Hb.
  set (ra := a mod 26) in *. set (rb := b mod 26) in *.
  set (qa := a / 26) in *. set (qb := b / 26) in *.
  clearbody ra rb qa qb. subst a b.
  replace (26 * qa + ra + (26 * qb + rb) * (26 * qb + rb))
    with (ra + rb * rb + (qa + 26 * qb * qb + 2 * qb * rb) * 26) by ring.
  now rewrite Z_mod_plus_full.
Qed.

(** X7. Which shift pairs make brute-force recovery exact. A text without
    upper-case letters is always recovered exactly, with no ambiguity, if
    and only if [shift1 * shift2 + shift1 + shift2] is a multiple of 26; a
    text without lower-case letters, if and only if
    [shift1 + shift2 * shift2] is one. *)
Theorem exact_recovery_per_case (shift1 shift2 : Z) :
  ((forall T, Forall (fun c => is_upper c = false) T ->
      brute_force_decrypt (fst (encrypt_text T shift1 shift2)) shift1 shift2
      = (T, []))
   <-> py_mod (shift1 * shift2 + shift1 + shift2) 26 = 0)
  /\ ((forall T, Forall (fun c => is_lower c = false) T ->
         brute_force_decrypt (fst (encrypt_text T shift1 shift2)) shift1 shift2
         = (T, []))
      <-> py_mod (shift1 + shift2 * shift2) 26 = 0).
Proof.
  pose proof (py_mod_range shift1) as R1. pose proof (py_mod_range shift2) as R2.
  destruct (recovery_table_at _ _ R1 R2) as [HL [HU _]].
  rewrite uniquely_recovered_reduced in HL, HU. unfold py_mod in HL, HU.
  rewrite reduce_lower_criterion in HL. rewrite reduce_upper_criterion in HU.
  split; rewrite exact_recovery_iff.
  - unfold py_mod. rewrite <- Z.eqb_eq, <- HL, uniquely_recovered_spec.
    split.
    + intros H t Ht. apply lower_alphabet_In in Ht.
      apply H; [now apply lower_not_upper | now rewrite Ht].
    + intros H t Ht Hl. apply H. apply lower_alphabet_In.
      rewrite Ht, orb_false_r in Hl. exact Hl.
  - unfold py_mod. rewrite <- Z.eqb_eq, <- HU, uniquely_recovered_spec.
    split.
    + intros H t Ht. apply upper_alphabet_In in Ht.
      apply H; [now apply upper_not_lower | now rewrite Ht, orb_true_r].
    + intros H t Ht Hl. apply H. apply upper_alphabet_In.
      rewrite Ht in Hl. exact Hl.
Qed.

(** X8. Brute-force recovery is exact on every text, with no ambiguity, if and
    only if both shifts are multiples of 26; for any other pair some text is
    recovered with an ambiguity or wrongly. *)
Theorem exact_recovery_iff_zero_shifts (shift1 shift2 : Z) :
  (forall T,
     brute_force_decrypt (fst (encrypt_text T shift1 shift2)) shift1 shift2
     = (T, []))
  <-> py_mod shift1 26 = 0 /\ py_mod shift2 26 = 0.
Proof.
  pose proof (py_mod_range shift1) as R1. pose proof (py_mod_range shift2) as R2.
  destruct (recovery_table_at _ _ R1 R2) as [HL [HU H0]].
  rewrite uniquely_recovered_reduced in HL, HU.
  rewrite <- HL, <- HU in H0.
  transitivity (forall T, Forall (fun _ => True) T ->
                  brute_force_decrypt (fst (encrypt_text T shift1 shift2))
                    shift1 shift2 = (T, [])).
  { split; intros H T; [intros _; apply H | apply H].
    apply Forall_forall. auto. }
  rewrite exact_recovery_iff.
  rewrite <- !Z.eqb_eq, <- andb_true_iff, <- H0, andb_true_iff,
    !uniquely_recovered_spec.
  split.
  - intros H. split; intros t Ht; apply H; auto.
    + apply lower_alphabet_In in Ht. now rewrite Ht.
    + apply upper_alphabet_In in Ht. now rewrite Ht, orb_true_r.
  - intros [Hl Hu] t _ Ht. apply orb_true_iff in Ht. destruct Ht as [Ht | Ht].
    + apply Hl. now apply lower_alphabet_In.
    + apply Hu. now apply upper_alphabet_In.
Qed.

(** ** Files written and messages printed *)

Section Files.

Lemma text_eqb_refl x : text_eqb x x = true.
Proof. now apply text_eqb_eq. Qed.

Lemma text_eqb_neq x y : x <> y -> text_eqb x y = false.
Proof.
  intros H. destruct (text_eqb x y) eqn:E; [| reflexivity].
  apply text_eqb_eq in E. contradiction.
Qed.

Lemma with_file_same fs path content : with_file fs path content path = Some content.
Proof. unfold with_file. now rewrite text_eqb_refl. Qed.

Lemma with_file_other fs path content p :
  p <> path -> with_file fs path content p = fs p.
Proof. intros H. unfold with_file. now rewrite text_eqb_neq. Qed.

Lemma universal_newlines_id t :
  Forall (fun c => c <> 13%N) t -> universal_newlines t = t.
Proof.
  induction 1 as [| c t Hc _ IH]; simpl; [reflexivity |].
  apply N.eqb_neq in Hc. now rewrite Hc, IH.
Qed.

Lemma universal_newlines_length t :
  (length (universal_newlines t) <= length t)%nat.
Proof.
  remember (length t) as n eqn:Hn. revert t Hn.
  induction n as [n IH] using lt_wf_ind. intros t Hn.
  destruct t as [| c [| d rest]]; simpl in *; subst n.
  - lia.
  - destruct (c =? 13)%N; simpl; lia.
  - destruct (c =? 13)%N.
    + destruct (d =? 10)%N; simpl.
      * pose proof (IH (length rest) ltac:(lia) rest eq_refl). lia.
      * pose proof (IH (S (length rest)) ltac:(lia) (d :: rest) eq_refl).
        simpl in *. lia.
    + pose proof (IH (S (length rest)) ltac:(lia) (d :: rest) eq_refl).
      simpl in *. lia.
Qed.

Lemma hex_digit_no_cr d : hex_digit d <> 13%N.
Proof. unfold hex_digit. destruct (d <? 10)%N; lia. Qed.

Lemma json_escape_char_no_cr c :
  Forall (fun x => x <> 13%N) (json_escape_char c).
Proof.
  unfold json_escape_char.
  repeat match goal with
         | |- context [if ?b then _ else _] => destruct b eqn:?
         end;
    repeat (constructor; try (apply hex_digit_no_cr); try discriminate).
  apply N.eqb_neq. assumption.
Qed.

Lemma json_dump_string_no_cr s :
  Forall (fun x => x <> 13%N) (json_dump_string s).
Proof.
  unfold json_dump_string. apply Forall_app. split.
  - repeat constructor. discriminate.
  - apply Forall_app. split; [| repeat constructor; discriminate].
    induction (text_of_string s) as [| c t IH]; simpl; [constructor |].
    apply Forall_app. split; [apply json_escape_char_no_cr | exact IH].
Qed.

(** The metadata file is a single line: whatever the strings, the text
    [json_dump] writes holds no carriage return, and reads back as it was
    written. *)
Lemma json_dump_no_cr meta : Forall (fun x => x <> 13%N) (json_dump meta).
Proof.
  unfold json_dump. apply Forall_app. split; [repeat constructor; discriminate |].
  apply Forall_app. split; [| repeat constructor; discriminate].
  induction meta as [| s [| s' rest] IH]; cbn [json_dump_items].
  - constructor.
  - apply json_dump_string_no_cr.
  - apply Forall_app. split; [apply json_dump_string_no_cr |].
    apply Forall_app. split; [repeat constructor; discriminate | exact IH].
Qed.

Lemma json_dump_reads_back meta : universal_newlines (json_dump meta) = json_dump meta.
Proof. apply universal_newlines_id, json_dump_no_cr. Qed.

End Files.







(** ** The diff preview of the verifier is bounded *)

Lemma print_diff_spec diff : forall shown printed,
  (shown < 200)%nat ->
  print_diff diff shown printed
  = if (length diff <? 200 - shown)%nat
    then printed ++ map rstrip_newline diff
    else printed ++ map rstrip_newline (firstn (200 - shown) diff)
         ++ [text_of_string "... (diff truncated) ..."].
Proof.
  induction diff as [| line rest IH]; intros shown printed Hs.
  - cbn [print_diff length map]. destruct (Nat.ltb_spec 0 (200 - shown)); [| lia].
    now rewrite app_nil_r.
  - cbn [print_diff length].
    destruct (Nat.leb_spec 200 (S shown)) as [Hge | Hlt].
    + assert (shown = 199%nat) as -> by lia.
      replace (200 - 199)%nat with 1%nat by lia.
      destruct (Nat.ltb_spec (S (length rest)) 1); [lia |].
      cbn [firstn map]. now rewrite <- app_assoc.
    + rewrite IH by lia.
      replace (200 - shown)%nat with (S (200 - S shown)) by lia.
      change (S (length rest) <? S (200 - S shown))%nat
        with (length rest <? 200 - S shown)%nat.
      destruct (length rest <? 200 - S shown)%nat; cbn [firstn map];
        now rewrite <- !app_assoc.
Qed.

(** X12. [verify_files] raises [FileNotFoundError] for the original file
    when it is missing and otherwise for the recovered file when that is
    missing. When it returns it has called [print] at most 203 times: once
    on a match; on a mismatch for the two header messages, then for every
    line of the diff when it has fewer than 200 lines, and otherwise for its
    first 200 lines and for the truncation message, which is therefore
    printed for a diff of exactly 200 lines as well. *)
Theorem verify_files_report_bounded (fs : files) (raw_path dec_path : text) :
  match fs raw_path, fs dec_path with
  | None, _ =>
      verify_files fs raw_path dec_path = FileNotFoundError (not_found raw_path)
  | Some _, None =>
      verify_files fs raw_path dec_path = FileNotFoundError (not_found dec_path)
  | Some raw, Some dec =>
      exists printed,
        verify_files fs raw_path dec_path = Returned (text_eqb raw dec, printed)
        /\ (length printed <= 203)%nat
        /\ (text_eqb raw dec = true -> length printed = 1%nat)
        /\ (text_eqb raw dec = false ->
            let diff := Difflib.unified_diff (splitlines_keepends raw)
                          (splitlines_keepends dec) raw_path dec_path 3 in
            printed
            = if (length diff <? 200)%nat
              then mismatch_header ++ map rstrip_newline diff
              else mismatch_header ++ map rstrip_newline (firstn 200 diff)
                   ++ [text_of_string "... (diff truncated) ..."])
  end.
Proof.
  unfold verify_files, not_found.
  destruct (fs raw_path) as [raw |]; [| reflexivity].
  destruct (fs dec_path) as [dec |]; [| reflexivity].
  destruct (text_eqb raw dec).
  - eexists. split; [reflexivity |]. split; [cbn [length]; lia |].
    split; [intros _; reflexivity | discriminate].
  - eexists. split; [reflexivity |].
    rewrite print_diff_spec by lia. rewrite Nat.sub_0_r.
    split; [| split; [discriminate | intros _; reflexivity]].
    destruct (Nat.ltb_spec (length (Difflib.unified_diff (splitlines_keepends raw)
                (splitlines_keepends dec) raw_path dec_path 3)) 200).
    + rewrite length_app, length_map. unfold mismatch_header.
      cbn [length]. lia.
    + rewrite !length_app, length_map, length_firstn. unfold mismatch_header.
      cbn [length]. lia.
Qed.

(** ** The whole run *)

Section Run.

Variable json_load : text -> load_result.

Lemma text_neq_of_eqb x y : text_eqb x y = false -> x <> y.
Proof. intros H E. apply text_eqb_eq in E. congruence. Qed.

Lemma encrypt_file_returns fs raw_path enc_path meta_path shift1 shift2 raw :
  fs (spelling raw_path) = Some raw ->
  encrypt_file fs raw_path enc_path meta_path shift1 shift2
  = Returned (write_text
                (write_text fs enc_path (fst (encrypt_text raw shift1 shift2)))
                meta_path (json_dump (map classify_plain raw)),
              [Encrypted (spelling enc_path) (spelling meta_path)]).
Proof.
  intros H. unfold encrypt_file. rewrite H, encrypt_text_spec. reflexivity.
Qed.

Lemma decrypt_file_returns fs enc_path dec_path meta_path shift1 shift2 enc_text :
  fs (spelling enc_path) = Some enc_text ->
  exists dec_chars printed,
    decrypt_file json_load fs enc_path dec_path meta_path shift1 shift2
    = Returned (write_text fs dec_path dec_chars, printed).
Proof.
  intros H. unfold decrypt_file. rewrite H.
  destruct (load_metadata json_load fs meta_path enc_text) as [[meta |] printed].
  - eexists. eexists. reflexivity.
  - destruct (brute_force_decrypt enc_text shift1 shift2) as [d a].
    eexists. eexists. reflexivity.
Qed.

Lemma decrypt_file_with_metadata fs enc_path dec_path meta_path shift1 shift2
    enc_text content items :
  fs (spelling enc_path) = Some enc_text ->
  fs (spelling meta_path) = Some content ->
  json_load content = Loaded (JArray items) ->
  length items = length enc_text ->
  decrypt_file json_load fs enc_path dec_path meta_path shift1 shift2
  = Returned (write_text fs dec_path
                (map (fun cm => inverse_by_meta (fst cm) (meta_code_of (snd cm))
                                  shift1 shift2)
                     (combine enc_text items)),
              [Decrypted (spelling dec_path)]).
Proof.
  intros He Hm Hl Hn. unfold decrypt_file, load_metadata.
  rewrite He, Hm, Hl, Hn, Nat.eqb_refl. reflexivity.
Qed.

Lemma string_of_text_of_string s : string_of_text (text_of_string s) = Some s.
Proof.
  induction s as [| a s IH]; simpl; [reflexivity |].
  unfold char_of_ascii. pose proof (N_ascii_bounded a) as Hb.
  apply N.ltb_lt in Hb. rewrite Hb, IH. simpl. now rewrite ascii_N_embedding.
Qed.

Lemma encrypt_keeps_cr_out shift1 shift2 raw :
  Forall (fun c => c <> 13%N) raw ->
  Forall (fun c => c <> 13%N) (fst (encrypt_text raw shift1 shift2)).
Proof.
  intros H. rewrite encrypt_text_spec. cbn [fst]. rewrite Forall_map.
  revert H. apply Forall_impl. intros c Hc E.
  destruct (encrypt_char_case shift1 shift2 c) as [HL HU].
  rewrite E in HL, HU.
  assert ((is_lower c || is_upper c) = false) as Hl
    by (rewrite <- HL, <- HU; reflexivity).
  rewrite (encrypt_other shift1 shift2 c Hl) in E. contradiction.
Qed.

Lemma decode_encoder_metadata shift1 shift2 raw :
  map (fun cm => inverse_by_meta (fst cm) (meta_code_of (snd cm)) shift1 shift2)
      (combine (fst (encrypt_text raw shift1 shift2))
               (map (fun code => JString (text_of_string code))
                    (map classify_plain raw)))
  = raw.
Proof.
  rewrite encrypt_text_spec. cbn [fst].
  induction raw as [| c raw IH]; cbn [map combine fst snd]; [reflexivity |].
  rewrite IH. f_equal. unfold meta_code_of.
  rewrite string_of_text_of_string.
  rewrite <- (encrypt_char_and_meta_code shift1 shift2).
  apply inverse_encrypt_char.
Qed.

Lemma output_paths_distinct :
  RAW_FILE <> ENC_FILE /\ RAW_FILE <> META_FILE /\ RAW_FILE <> DEC_FILE
  /\ ENC_FILE <> META_FILE /\ ENC_FILE <> DEC_FILE /\ META_FILE <> DEC_FILE.
Proof. repeat split; apply text_neq_of_eqb; reflexivity. Qed.

End Run.

(** X13. A run of [main] on a raw text as it is read (no carriage return), with
    [json.load] returning the list that [json.dump] wrote: the decrypted
    file ends up equal to the raw text, the encrypted file holds its cipher
    text, the raw file is untouched, and the run prints the three success
    messages, so the verification succeeds. *)
Theorem main_round_trip (json_load : text -> load_result) (fs : files)
    (raw : text) (shift1 shift2 : Z) :
  fs RAW_FILE = Some raw ->
  Forall (fun c => c <> 13%N) raw ->
  json_load (json_dump (map classify_plain raw))
  = Loaded (JArray (map (fun code => JString (text_of_string code))
                        (map classify_plain raw))) ->
  exists fs',
    main json_load (Some shift1) (Some shift2) fs
    = (fs', [Encrypted ENC_FILE META_FILE; Decrypted DEC_FILE;
             Line (text_of_string
                     "Decryption successful! Decrypted text matches the original.")])
    /\ fs' DEC_FILE = Some raw
    /\ fs' RAW_FILE = Some raw
    /\ fs' ENC_FILE = Some (fst (encrypt_text raw shift1 shift2)).
Proof.
  intros Hraw Hcr Hload.
  destruct output_paths_distinct as [RE [RM [RD [EM [ED MD]]]]].
  unfold main. rewrite (encrypt_file_returns fs RAW_NAME _ _ _ _ raw Hraw).
  set (enc := fst (encrypt_text raw shift1 shift2)).
  set (fs1 := write_text (write_text fs ENC_NAME enc) META_NAME
                (json_dump (map classify_plain raw))).
  cbn [spelling ENC_NAME META_NAME DEC_NAME RAW_NAME].
  assert (fs1 ENC_FILE = Some enc) as He.
  { unfold fs1, write_text. cbn [spelling ENC_NAME META_NAME].
    rewrite with_file_other, with_file_same by exact EM.
    f_equal. apply universal_newlines_id, encrypt_keeps_cr_out, Hcr. }
  assert (fs1 META_FILE = Some (json_dump (map classify_plain raw))) as Hm.
  { unfold fs1, write_text. cbn [spelling ENC_NAME META_NAME].
    now rewrite with_file_same, json_dump_reads_back. }
  assert (fs1 RAW_FILE = Some raw) as Hr.
  { unfold fs1, write_text. cbn [spelling ENC_NAME META_NAME].
    now rewrite !with_file_other. }
  rewrite (decrypt_file_with_metadata json_load fs1 ENC_NAME DEC_NAME META_NAME
             _ _ enc _ _ He Hm Hload).
  2: { unfold enc. rewrite encrypt_text_spec. cbn [fst]. now rewrite !length_map. }
  assert (map (fun cm => inverse_by_meta (fst cm) (meta_code_of (snd cm))
                           shift1 shift2)
              (combine enc (map (fun code => JString (text_of_string code))
                                (map classify_plain raw))) = raw) as Hdec
    by apply decode_encoder_metadata.
  rewrite Hdec.
  set (fs2 := write_text fs1 DEC_NAME raw).
  cbn [spelling DEC_NAME].
  assert (fs2 DEC_FILE = Some raw) as Hd.
  { unfold fs2, write_text. cbn [spelling DEC_NAME].
    rewrite with_file_same. f_equal.
    now apply universal_newlines_id. }
  assert (fs2 RAW_FILE = Some raw) as Hr2.
  { unfold fs2, write_text. cbn [spelling DEC_NAME].
    now rewrite with_file_other. }
  unfold verify_files. rewrite Hr2, Hd, text_eqb_refl.
  exists fs2. split; [reflexivity |]. split; [exact Hd |]. split; [exact Hr2 |].
  unfold fs2, write_text. cbn [spelling DEC_NAME].
  rewrite with_file_other by exact ED. exact He.
Qed.

(** X14. Whatever the inputs and the files of the working directory, a run
    of [main] leaves the raw file, and the file of every name of that
    directory other than its three outputs, as they were; when an input is
    not an integer, or the raw file is missing, it prints one message and
    writes nothing at all. *)
Theorem main_frame (json_load : text -> load_result)
    (input1 input2 : option Z) (fs : files) :
  fst (main json_load input1 input2 fs) RAW_FILE = fs RAW_FILE
  /\ (forall p : file_name,
        spelling p <> ENC_FILE -> spelling p <> META_FILE ->
        spelling p <> DEC_FILE ->
        fst (main json_load input1 input2 fs) (spelling p) = fs (spelling p))
  /\ (input1 = None \/ input2 = None ->
      main json_load input1 input2 fs = (fs, [InvalidShifts]))
  /\ (forall shift1 shift2,
        input1 = Some shift1 -> input2 = Some shift2 -> fs RAW_FILE = None ->
        main json_load input1 input2 fs
        = (fs, [EncryptionError (not_found RAW_FILE)])).
Proof.
  assert (forall p : file_name,
            spelling p <> ENC_FILE -> spelling p <> META_FILE ->
            spelling p <> DEC_FILE ->
            fst (main json_load input1 input2 fs) (spelling p)
            = fs (spelling p)) as Hframe.
  { intros p H1 H2 H3. unfold main.
    destruct input1 as [shift1 |], input2 as [shift2 |]; try reflexivity.
    destruct (fs RAW_FILE) as [raw |] eqn:Hraw.
    - rewrite (encrypt_file_returns fs RAW_NAME _ _ _ _ raw Hraw).
      set (fs1 := write_text _ META_NAME _).
      assert (exists enc, fs1 ENC_FILE = Some enc) as [enc He].
      { unfold fs1, write_text. cbn [spelling ENC_NAME META_NAME]. eexists.
        rewrite with_file_other, with_file_same;
          [reflexivity | apply output_paths_distinct]. }
      destruct (decrypt_file_returns json_load fs1 ENC_NAME DEC_NAME META_NAME
                  shift1 shift2 enc He) as [dec [printed ->]].
      assert (write_text fs1 DEC_NAME dec (spelling p) = fs (spelling p)) as Hp.
      { unfold fs1, write_text. cbn [spelling ENC_NAME META_NAME DEC_NAME].
        now rewrite !with_file_other. }
      destruct (verify_files _ RAW_FILE DEC_FILE) as [[b printed3] | e];
        exact Hp.
    - unfold encrypt_file. cbn [spelling RAW_NAME]. rewrite Hraw. reflexivity. }
  destruct output_paths_distinct as [RE [RM [RD _]]].
  split; [exact (Hframe RAW_NAME RE RM RD) |]. split; [exact Hframe |]. split.
  - intros [-> | ->]; [reflexivity |]. destruct input1; reflexivity.
  - intros shift1 shift2 -> -> Hraw. unfold main, encrypt_file.
    cbn [spelling RAW_NAME]. now rewrite Hraw.
Qed.

Lemma main_round_trip_witness :
  exists fs',
    main (fun _ => Loaded (JArray (map (fun code => JString (text_of_string code))
                                       (map classify_plain (text_of_string "Hi!")))))
         (Some 3) (Some 5) (with_file no_files RAW_FILE (text_of_string "Hi!"))
    = (fs', [Encrypted ENC_FILE META_FILE; Decrypted DEC_FILE;
             Line (text_of_string
                     "Decryption successful! Decrypted text matches the original.")])
    /\ fs' DEC_FILE = Some (text_of_string "Hi!")
    /\ fs' RAW_FILE = Some (text_of_string "Hi!")
    /\ fs' ENC_FILE = Some (fst (encrypt_text (text_of_string "Hi!") 3 5)).
Proof.
  apply (main_round_trip _ (with_file no_files RAW_FILE (text_of_string "Hi!"))
           (text_of_string "Hi!") 3 5).
  - reflexivity.
  - repeat constructor; discriminate.
  - reflexivity.
Defined.

(** * The recursive pattern *)

Module KochFacts.

Import Koch.

Section Facts.

Context {F : Type} `{FloatOps F}.

Lemma count_app (f : @call F -> bool) (a b : list (@call F)) :
  count f (a ++ b) = (count f a + count f b)%nat.
Proof. unfold count. now rewrite filter_app, length_app. Qed.

Lemma count_repeat (f : @call F -> bool) (l : list (@call F)) n :
  count f (concat (repeat l n)) = (n * count f l)%nat.
Proof.
  induction n as [| n IH]; simpl; [reflexivity |].
  now rewrite count_app, IH.
Qed.

Lemma koch_edge_negative fuel : forall length depth,
  depth < 0 -> koch_edge fuel length depth = None.
Proof.
  induction fuel as [| fuel IH]; intros length depth Hd; simpl; [reflexivity |].
  destruct (Z.eqb_spec depth 0); [lia |].
  rewrite IH by lia. reflexivity.
Qed.

Lemma koch_edge_short_fuel fuel : forall length depth,
  Z.of_nat fuel <= depth -> koch_edge fuel length depth = None.
Proof.
  induction fuel as [| fuel IH]; intros length depth Hd; simpl; [reflexivity |].
  destruct (Z.eqb_spec depth 0); [lia |].
  rewrite IH by lia. reflexivity.
Qed.

Lemma koch_edge_step fuel length depth :
  koch_edge (S fuel) length depth
  = if depth =? 0 then Some [Forward length]
    else
      let short_length := fdiv length three in
      and_then (koch_edge fuel short_length (depth - 1)) (fun e1 =>
      and_then (koch_edge fuel short_length (depth - 1)) (fun e2 =>
      and_then (koch_edge fuel short_length (depth - 1)) (fun e3 =>
      and_then (koch_edge fuel short_length (depth - 1)) (fun e4 =>
      Some (e1 ++ [Left (of_int 60)] ++ e2 ++ [Right (of_int 120)]
            ++ e3 ++ [Left (of_int 60)] ++ e4))))).
Proof. reflexivity. Qed.

Lemma koch_edge_succ d extra length e' :
  koch_edge (S d + extra) (fdiv length three) (Z.of_nat d) = Some e' ->
  koch_edge (S (S d) + extra) length (Z.of_nat (S d))
  = Some (e' ++ [Left (of_int 60)] ++ e' ++ [Right (of_int 120)]
          ++ e' ++ [Left (of_int 60)] ++ e').
Proof.
  intros He. change (S (S d) + extra)%nat with (S (S d + extra)).
  rewrite koch_edge_step.
  destruct (Z.eqb_spec (Z.of_nat (S d)) 0); [lia |].
  replace (Z.of_nat (S d) - 1) with (Z.of_nat d) by lia.
  cbv zeta. rewrite He. reflexivity.
Qed.

(** The trace of an edge of depth [d]. *)
Lemma koch_edge_trace d : forall extra length,
  exists e,
    koch_edge (S d + extra) length (Z.of_nat d) = Some e
    /\ count is_forward e = (4 ^ d)%nat
    /\ Forall (fun c => is_forward c = true ->
                 c = Forward (Nat.iter d (fun x => fdiv x three) length)) e
    /\ (3 * count is_right e + 1 = 4 ^ d)%nat
    /\ count is_left e = (2 * count is_right e)%nat
    /\ count moves_pen e = 0%nat
    /\ (List.length e + 1 = 2 * 4 ^ d)%nat.
Proof.
  induction d as [| d IH]; intros extra length.
  - exists [Forward length]. cbn. repeat split; try reflexivity.
    repeat constructor.
  - destruct (IH extra (fdiv length three)) as [e [He [Hf [Hl [Hr [Hlr [Hp Hn]]]]]]].
    eexists. split.
    + apply koch_edge_succ. exact He.
    + rewrite !count_app, Hf, Hlr, Hp, !length_app.
      change (4 ^ S d)%nat with (4 * 4 ^ d)%nat.
      cbn [count filter is_forward is_left is_right moves_pen List.length].
      split; [lia |]. split; [| repeat split; lia].
      rewrite Nat.iter_succ_r.
      repeat (apply Forall_app; split); try exact Hl;
        repeat constructor; discriminate.
Qed.

Lemma sides_loop_trace fuel side_length angle depth e :
  koch_edge fuel side_length depth = Some e ->
  forall sides calls,
    sides_loop fuel sides side_length angle depth calls
    = Some (calls ++ concat (repeat (e ++ [Right angle]) sides)).
Proof.
  intros He. induction sides as [| sides IH]; intros calls; simpl.
  - now rewrite app_nil_r.
  - rewrite He. cbn [and_then]. rewrite IH, <- !app_assoc. reflexivity.
Qed.

Lemma draw_polygon_trace num_sides side_length d extra :
  3 <= num_sides ->
  fits_float num_sides = true ->
  exists x y e,
    draw_polygon (S d + extra) num_sides side_length (Z.of_nat d)
    = Some (Return, [],
            PenUp :: Goto x y :: PenDown
            :: concat (repeat (e ++ [Right (fdiv three_sixty (of_int num_sides))])
                              (Z.to_nat num_sides)))
    /\ koch_edge (S d + extra) side_length (Z.of_nat d) = Some e
    /\ count is_forward
         (concat (repeat (e ++ [Right (fdiv three_sixty (of_int num_sides))])
                         (Z.to_nat num_sides)))
       = (Z.to_nat num_sides * 4 ^ d)%nat
    /\ count moves_pen
         (concat (repeat (e ++ [Right (fdiv three_sixty (of_int num_sides))])
                         (Z.to_nat num_sides)))
       = 0%nat
    /\ (3 * count is_right
             (concat (repeat (e ++ [Right (fdiv three_sixty (of_int num_sides))])
                             (Z.to_nat num_sides)))
        = Z.to_nat num_sides * (4 ^ d + 2))%nat.
Proof.
  intros Hge Hfit.
  destruct (koch_edge_trace d extra side_length)
    as [e [He [Hf [_ [Hr [_ [Hp _]]]]]]].
  unfold draw_polygon. destruct (Z.ltb_spec num_sides 3); [lia |].
  rewrite Hfit. cbn [negb].
  cbv zeta. rewrite (sides_loop_trace _ _ _ _ e He). cbn [and_then app].
  do 2 eexists. exists e. split; [reflexivity |]. split; [exact He |].
  rewrite !count_repeat, !count_app, Hf, Hp.
  cbn [count filter is_forward moves_pen is_right List.length].
  repeat split; nia.
Qed.

Lemma draw_polygon_stuck fuel num_sides side_length depth :
  3 <= num_sides ->
  fits_float num_sides = true ->
  depth < 0 \/ Z.of_nat fuel <= depth ->
  draw_polygon fuel num_sides side_length depth = None.
Proof.
  intros Hge Hfit Hd. unfold draw_polygon.
  destruct (Z.ltb_spec num_sides 3); [lia |].
  rewrite Hfit. cbn [negb]. cbv zeta.
  destruct (Z.to_nat num_sides) as [| n] eqn:En; [lia |].
  cbn [sides_loop].
  destruct Hd as [Hd | Hd];
    [rewrite koch_edge_negative by exact Hd
    | rewrite koch_edge_short_fuel by exact Hd]; reflexivity.
Qed.

End Facts.

(** X15. [koch_edge] returns exactly when the depth is not negative and the
    recursion may nest one level deeper than the depth: with a negative
    depth it never reaches its base case, whatever the nesting allowed. *)
Theorem koch_edge_returns_iff {F : Type} `{FloatOps F} (fuel : nat)
    (length : F) (depth : Z) :
  koch_edge fuel length depth <> None <-> 0 <= depth < Z.of_nat fuel.
Proof.
  split.
  - intros Hn. destruct (Z_lt_ge_dec depth 0) as [Hneg | Hpos].
    + exfalso. apply Hn. now apply koch_edge_negative.
    + split; [lia |]. destruct (Z_lt_ge_dec depth (Z.of_nat fuel)); [assumption |].
      exfalso. apply Hn. apply koch_edge_short_fuel. lia.
  - intros [H0 Hf].
    destruct (koch_edge_trace (Z.to_nat depth) (fuel - S (Z.to_nat depth)) length)
      as [e [He _]].
    replace (S (Z.to_nat depth) + (fuel - S (Z.to_nat depth)))%nat with fuel in He
      by lia.
    rewrite Z2Nat.id in He by lia. rewrite He. discriminate.
Qed.

(** X16. An edge of depth [d] is [4 ^ d] segments, every one of the length
    divided [d] times by [3.0], joined by left turns of 60 and right turns
    of 120, twice as many left as right, so that the heading at the end is
    the heading at the start; the pen is never lifted or moved otherwise. *)
Theorem koch_edge_segments {F : Type} `{FloatOps F} (d extra : nat)
    (length : F) :
  exists e,
    koch_edge (S d + extra) length (Z.of_nat d) = Some e
    /\ count is_forward e = (4 ^ d)%nat
    /\ Forall (fun c => is_forward c = true ->
                 c = Forward (Nat.iter d (fun x => fdiv x three) length)) e
    /\ Forall (fun c => is_left c = true -> c = Left (of_int 60)) e
    /\ Forall (fun c => is_right c = true -> c = Right (of_int 120)) e
    /\ (3 * count is_right e + 1 = 4 ^ d)%nat
    /\ count is_left e = (2 * count is_right e)%nat
    /\ count moves_pen e = 0%nat
    /\ (List.length e + 1 = 2 * 4 ^ d)%nat.
Proof.
  destruct (koch_edge_trace d extra length) as [e [He [Hf [Hl [Hr [Hlr [Hp Hn]]]]]]].
  exists e. repeat split; try assumption.
  - clear Hf Hl Hr Hlr Hp Hn. revert extra length e He.
    induction d as [| d IH]; intros extra length e He.
    + cbn in He. injection He as <-. constructor; [discriminate | constructor].
    + destruct (koch_edge_trace d extra (fdiv length three)) as [e' [E _]].
      rewrite (koch_edge_succ d extra length e' E) in He. injection He as <-.
      pose proof (IH extra _ e' E) as IHe.
      repeat first
        [ exact IHe
        | apply Forall_app; split
        | apply Forall_cons; [first [discriminate | intros _; reflexivity] |] ].
  - clear Hf Hl Hr Hlr Hp Hn. revert extra length e He.
    induction d as [| d IH]; intros extra length e He.
    + cbn in He. injection He as <-. constructor; [discriminate | constructor].
    + destruct (koch_edge_trace d extra (fdiv length three)) as [e' [E _]].
      rewrite (koch_edge_succ d extra length e' E) in He. injection He as <-.
      pose proof (IH extra _ e' E) as IHe.
      repeat first
        [ exact IHe
        | apply Forall_app; split
        | apply Forall_cons; [first [discriminate | intros _; reflexivity] |] ].
Qed.

(** X17. [draw_polygon] with fewer than 3 sides prints its refusal and makes
    no call on the turtle. With a number of sides beyond the range of
    floats it raises [OverflowError] before any call on the turtle. With
    any other number of sides and a depth [d] that the nesting allowed
    covers, it lifts the pen, goes to the start, lowers the pen, and then
    draws, once per side, the edge of [koch_edge] followed by a right turn
    of [360.0 / num_sides]: [num_sides * 4 ^ d] segments in all, without
    moving the pen otherwise. With a negative depth, or a depth that the
    nesting allowed does not cover, it does not return. *)
Theorem draw_polygon_segments {F : Type} `{FloatOps F} (num_sides : Z)
    (side_length : F) (d extra : nat) :
  if num_sides <? 3 then
    forall fuel depth,
      draw_polygon fuel num_sides side_length depth
      = Some (Return, [TooFewSides], [])
  else if fits_float num_sides then
    (exists x y e rest,
       draw_polygon (S d + extra) num_sides side_length (Z.of_nat d)
       = Some (Return, [], PenUp :: Goto x y :: PenDown :: rest)
       /\ koch_edge (S d + extra) side_length (Z.of_nat d) = Some e
       /\ rest
          = concat (repeat (e ++ [Right (fdiv three_sixty (of_int num_sides))])
                           (Z.to_nat num_sides))
       /\ count is_forward rest = (Z.to_nat num_sides * 4 ^ d)%nat
       /\ count moves_pen rest = 0%nat
       /\ (3 * count is_right rest = Z.to_nat num_sides * (4 ^ d + 2))%nat)
    /\ (forall fuel depth,
          depth < 0 \/ Z.of_nat fuel <= depth ->
          draw_polygon fuel num_sides side_length depth = None)
  else
    forall fuel depth,
      draw_polygon fuel num_sides side_length depth
      = Some (OverflowError, [], []).
Proof.
  destruct (Z.ltb_spec num_sides 3) as [Hlt | Hge].
  - intros fuel depth. unfold draw_polygon.
    destruct (Z.ltb_spec num_sides 3); [reflexivity | lia].
  - destruct (fits_float num_sides) eqn:Hfit.
    + split.
      * destruct (draw_polygon_trace num_sides side_length d extra Hge Hfit)
          as [x [y [e [Hd [He [Hf [Hp Hr]]]]]]].
        exists x, y, e. eexists. split; [exact Hd |]. split; [exact He |].
        split; [reflexivity |]. split; [exact Hf |]. split; [exact Hp | exact Hr].
      * intros fuel depth Hd. now apply draw_polygon_stuck.
    + intros fuel depth. unfold draw_polygon.
      destruct (Z.ltb_spec num_sides 3); [lia |]. now rewrite Hfit.
Qed.


End KochFacts.
